(** * memory_notation.h: the annotation macros and what the C preprocessor
      makes of them

    The repository is one header, [memory_notation.h].  Between an include
    guard it defines nine annotation macros, seven short forms of them and
    one macro that wraps GCC's [cleanup] attribute.  The header is embedded
    as the list of its preprocessing directives (comments are gone after
    translation phase 3, so they are not part of it), and it is given its
    meaning by a model of the part of the C preprocessor it exercises:
    conditional inclusion with [#ifndef]/[#endif], [#define] of object-like
    and function-like macros, and macro replacement of program text
    (ISO C 6.10.1 and 6.10.3).  The header uses neither [#] nor [##] nor
    variadic macros, and the model has none of them. *)

From stdpp Require Import base gmap strings list fin_maps.

Local Open Scope string_scope.
Local Open Scope list_scope.

(** ** Preprocessing tokens *)

(** Parentheses and commas drive the collection of macro arguments, so they
    are told apart from the other punctuators.  [TPainted x] is the
    identifier [x] met while [x] was being replaced: it is spelled [x], and
    it is never a candidate for replacement again (6.10.3.4 p2). *)
Inductive token : Type :=
  | TId (x : string)
  | TPainted (x : string)
  | TLParen
  | TRParen
  | TComma
  | TOther (s : string).

#[global] Instance token_eq_dec : EqDecision token.
Proof. solve_decision. Defined.

(** A macro definition: [m_params] is [None] for an object-like macro and
    the parameter names for a function-like one; [m_body] is the
    replacement list. *)
Record macro : Type := Macro {
  m_params : option (list string);
  m_body : list token
}.

#[global] Instance macro_eq_dec : EqDecision macro.
Proof. solve_decision. Defined.

(** ** Outcomes of preprocessing *)

Inductive cpp_error : Type :=
  | UnterminatedArguments (name : string)
  | WrongArgumentCount (name : string)
  | Redefined (name : string)
  | EndifWithoutIf
  | UnterminatedConditional.

Inductive res (A : Type) : Type :=
  | Done (a : A)
  | Fail (e : cpp_error)
  | OutOfFuel.

Arguments Done {A} a.
Arguments Fail {A} e.
Arguments OutOfFuel {A}.

Definition bind {A B : Type} (m : res A) (k : A -> res B) : res B :=
  match m with
  | Done a => k a
  | Fail e => Fail e
  | OutOfFuel => OutOfFuel
  end.

Definition rmap {A B : Type} (f : A -> B) (m : res A) : res B :=
  bind m (fun a => Done (f a)).

Notation "'let*' x ':=' m 'in' k" := (bind m (fun x => k))
  (at level 10, x name, m at level 100, k at level 200).

Fixpoint map_res {A B : Type} (f : A -> res B) (l : list A) : res (list B) :=
  match l with
  | [] => Done []
  | a :: l' => let* b := f a in let* bs := map_res f l' in Done (b :: bs)
  end.

(** ** Macro replacement *)

(** [collect_args depth cur acc ts] reads the arguments of a function-like
    macro invocation from [ts], the tokens after the opening parenthesis.
    [cur] is the argument being read (reversed), [acc] the arguments already
    closed (reversed), [depth] the number of inner parentheses open.  A
    comma at depth 0 closes an argument, the matching right parenthesis
    closes the invocation; the result is the arguments and the tokens after
    the invocation, or [None] when the text ends first. *)
Fixpoint collect_args (depth : nat) (cur : list token)
    (acc : list (list token)) (ts : list token)
    : option (list (list token) * list token) :=
  match ts with
  | [] => None
  | TRParen :: rest =>
      match depth with
      | 0 => Some (rev (rev cur :: acc), rest)
      | S d => collect_args d (TRParen :: cur) acc rest
      end
  | TLParen :: rest => collect_args (S depth) (TLParen :: cur) acc rest
  | TComma :: rest =>
      match depth with
      | 0 => collect_args 0 [] (rev cur :: acc) rest
      | S _ => collect_args depth (TComma :: cur) acc rest
      end
  | t :: rest => collect_args depth (t :: cur) acc rest
  end.

(** The arguments must be as many as the parameters; [f()] invokes a macro
    of no parameter with no argument and a macro of one parameter with one
    empty argument. *)
Definition bind_args (ps : list string) (args : list (list token))
    : option (list (string * list token)) :=
  if decide (length ps = length args) then Some (zip ps args)
  else match ps, args with
       | [], [[]] => Some []
       | _, _ => None
       end.

Fixpoint assoc (env : list (string * list token)) (x : string)
    : option (list token) :=
  match env with
  | [] => None
  | (p, a) :: env' => if decide (p = x) then Some a else assoc env' x
  end.

(** Replace each parameter of the replacement list by its argument. *)
Definition subst (env : list (string * list token)) (body : list token)
    : list token :=
  flat_map (fun t =>
    match t with
    | TId x => match assoc env x with Some a => a | None => [t] end
    | _ => [t]
    end) body.

Definition uses (p : string) (body : list token) : bool :=
  bool_decide (TId p ∈ body).

(** [expand fuel T hide ts] replaces the macros of table [T] in [ts], left
    to right.  [hide] holds the names of the macros being replaced, whose
    occurrences are painted instead.  An argument is fully replaced before
    it is substituted, and only when its parameter occurs in the
    replacement list (6.10.3.1); the result of the substitution is scanned
    again with the macro's own name hidden (6.10.3.4).  The name of a
    function-like macro that is not followed by a left parenthesis is left
    as it is.  [fuel] bounds the depth of the scan.

    The result of a substitution is scanned again on its own, before the
    text that follows it, where 6.10.3.4 p1 scans the two together: an
    invocation that begins with the last token of a replacement and takes
    its arguments from the following text is not formed.  No replacement
    list of the header ends in the name of a function-like macro, so on
    the header's table, which the theorems about the header's macros fix,
    the two scans are the same. *)
Fixpoint expand (fuel : nat) (T : gmap string macro) (hide : gset string)
    (ts : list token) : res (list token) :=
  match ts with
  | [] => Done []
  | t :: rest =>
    match fuel with
    | 0 => OutOfFuel
    | S fuel' =>
      let keep := rmap (cons t) (expand fuel' T hide rest) in
      match t with
      | TId x =>
        if decide (x ∈ hide)
        then rmap (cons (TPainted x)) (expand fuel' T hide rest)
        else
          match T !! x with
          | None => keep
          | Some (Macro None body) =>
              let* out := expand fuel' T ({[x]} ∪ hide) body in
              let* more := expand fuel' T hide rest in
              Done (out ++ more)
          | Some (Macro (Some ps) body) =>
              match rest with
              | TLParen :: rest' =>
                  match collect_args 0 [] [] rest' with
                  | None => Fail (UnterminatedArguments x)
                  | Some (args, rest'') =>
                      match bind_args ps args with
                      | None => Fail (WrongArgumentCount x)
                      | Some env =>
                          let* env' :=
                            map_res (fun pa : string * list token =>
                              if uses pa.1 body
                              then rmap (pair pa.1) (expand fuel' T hide pa.2)
                              else Done (pa.1, [])) env in
                          let* out := expand fuel' T ({[x]} ∪ hide)
                                   (subst env' body) in
                          let* more := expand fuel' T hide rest'' in
                          Done (out ++ more)
                      end
                  end
              | _ => keep
              end
          end
      | _ => keep
      end
    end
  end.

(** ** Directives and the state of the preprocessor *)

(** [Text ts] is the program text between two directives, all its lines
    together.  An invocation is not followed across a directive, which
    6.10.3 p11 leaves undefined. *)
Inductive directive : Type :=
  | Ifndef (name : string)
  | Define (name : string) (params : option (list string))
      (body : list token)
  | Undef (name : string)
  | Endif
  | Text (ts : list token).

(** [macros] is the macro table; [conds] is the stack of open conditional
    groups, innermost first, [true] for a group that is being processed and
    [false] for one that is being skipped; [defined] lists, in order, the
    names of the [#define] directives that were executed; [output] is the
    preprocessed text so far; [warnings] are the diagnostics that did not
    stop the preprocessor, in order. *)
Record cpp_state : Type := State {
  macros : gmap string macro;
  conds : list bool;
  defined : list string;
  output : list token;
  warnings : list cpp_error
}.

Definition init : cpp_state := State ∅ [] [] [] [].

Definition skipping (st : cpp_state) : bool :=
  match conds st with
  | false :: _ => true
  | _ => false
  end.

(** One directive.  In a skipped group only the nesting of conditionals is
    followed.  A [#define] of a name that is already a macro with another
    definition violates a constraint (6.10.3 p2): it is diagnosed with
    [Redefined], and, as compilers do, the preprocessor goes on with the
    new definition in place of the old one; with the same definition it is
    accepted in silence.  [#include] of a file is the file's directives in
    place. *)
Definition step (fuel : nat) (st : cpp_state) (d : directive)
    : res cpp_state :=
  match d with
  | Ifndef name =>
      let taken :=
        if skipping st then false
        else bool_decide (macros st !! name = None) in
      Done (State (macros st) (taken :: conds st) (defined st) (output st)
              (warnings st))
  | Endif =>
      match conds st with
      | [] => Fail EndifWithoutIf
      | _ :: cs =>
          Done (State (macros st) cs (defined st) (output st) (warnings st))
      end
  | Define name ps body =>
      if skipping st then Done st
      else
        let clash :=
          match macros st !! name with
          | Some m =>
              if decide (m = Macro ps body) then [] else [Redefined name]
          | None => []
          end in
        Done (State (<[name := Macro ps body]> (macros st)) (conds st)
                (defined st ++ [name]) (output st) (warnings st ++ clash))
  | Undef name =>
      if skipping st then Done st
      else Done (State (delete name (macros st)) (conds st)
                   (defined st) (output st) (warnings st))
  | Text ts =>
      if skipping st then Done st
      else
        let* out := expand fuel (macros st) ∅ ts in
        Done (State (macros st) (conds st) (defined st) (output st ++ out)
                (warnings st))
  end.

Fixpoint run (fuel : nat) (ds : list directive) (st : cpp_state)
    : res cpp_state :=
  match ds with
  | [] => Done st
  | d :: ds' => let* st' := step fuel st d in run fuel ds' st'
  end.

(** A whole translation unit: every conditional must be closed at its
    end. *)
Definition preprocess (fuel : nat) (ds : list directive) : res cpp_state :=
  let* st := run fuel ds init in
  match conds st with
  | [] => Done st
  | _ :: _ => Fail UnterminatedConditional
  end.

(** ** The header *)

Definition guard : string := "__MEMORY_NOTATION_H__".

(** The replacement list of [memory_cleanup_(f)]:
    [__attribute__((cleanup(f)))]. *)
Definition cleanup_body (f : token) : list token :=
  [TId "__attribute__"; TLParen; TLParen; TId "cleanup"; TLParen; f;
   TRParen; TRParen; TRParen].

Definition memory_notation_h : list directive :=
  [ Ifndef "__MEMORY_NOTATION_H__";
    Define "__MEMORY_NOTATION_H__" None [];

    Define "memory_guarded" None [];
    Define "memory_owner" None [];
    Define "memory_take_possession" None [];
    Define "memory_keep_alive" None [];
    Define "memory_release_after_of" (Some ["mem"]) [];
    Define "memory_owner_of" (Some ["mem"]) [];
    Define "memory_ref_count" None [];
    Define "memory_ptr_inout" None [];
    Define "memory_ptr_out" None [];

    Define "m_g" None [];
    Define "m_o" None [];
    Define "m_t" None [];
    Define "m_o_" (Some ["mem"]) [];
    Define "m_rc" None [];
    Define "m_io" None [];
    Define "m_out" None [];

    Define "memory_cleanup_" (Some ["f"]) (cleanup_body (TId "f"));
    Endif ].

(** The macro table a translation unit has after including the header
    first thing. *)
Definition header_macros : gmap string macro :=
  match run 0 memory_notation_h init with
  | Done st => macros st
  | _ => ∅
  end.

#[global] Instance directive_eq_dec : EqDecision directive.
Proof. solve_decision. Defined.

#[global] Instance cpp_error_eq_dec : EqDecision cpp_error.
Proof. solve_decision. Defined.

#[global] Instance cpp_state_eq_dec : EqDecision cpp_state.
Proof. solve_decision. Defined.

#[global] Instance res_eq_dec {A : Type} `{EqDecision A} :
  EqDecision (res A).
Proof. solve_decision. Defined.

(** The definitions a list of directives holds, in order. *)
Definition defines_of (ds : list directive) : list (string * macro) :=
  omap (fun d =>
    match d with
    | Define name ps body => Some (name, Macro ps body)
    | _ => None
    end) ds.

Fixpoint lookup_def (l : list (string * macro)) (x : string)
    : option macro :=
  match l with
  | [] => None
  | (n, m) :: l' => if decide (n = x) then Some m else lookup_def l' x
  end.

(** ** The vocabulary of the header *)

Definition object_annotations : list string :=
  ["memory_guarded"; "memory_owner"; "memory_take_possession";
   "memory_keep_alive"; "memory_ref_count"; "memory_ptr_inout";
   "memory_ptr_out"].

Definition function_annotations : list string :=
  ["memory_release_after_of"; "memory_owner_of"].

(** What one macro argument is: a text whose parentheses match and that has
    no comma outside them.  [arg_depth depth ts] is the number of
    parentheses open after [ts], read with [depth] of them open. *)
Fixpoint arg_depth (depth : nat) (ts : list token) : option nat :=
  match ts with
  | [] => Some depth
  | TLParen :: rest => arg_depth (S depth) rest
  | TRParen :: rest =>
      match depth with
      | 0 => None
      | S d => arg_depth d rest
      end
  | TComma :: rest =>
      match depth with
      | 0 => None
      | S _ => arg_depth depth rest
      end
  | _ :: rest => arg_depth depth rest
  end.

Definition is_argument (ts : list token) : bool :=
  bool_decide (arg_depth 0 ts = Some 0).

(** The example of the header's closing comment: [struct Example], its
    constructor, its destructor and an accessor, as annotated there. *)
Definition header_example : list token :=
  [TId "struct"; TId "Example"; TOther "{";
    TId "memory_guarded"; TId "char"; TOther "*"; TId "name"; TOther ";";
    TId "memory_owner"; TId "char"; TOther "*"; TId "id"; TOther ";";
    TOther "}"; TOther ";";
    TId "memory_take_possession"; TId "struct"; TId "Example"; TOther "*";
       TId "example_new"; TLParen;
    TId "memory_guarded"; TId "char"; TOther "*"; TId "name"; TComma;
    TId "memory_take_possession"; TId "char"; TOther "*"; TId "id";
    TRParen;
    TOther "{";
    TId "struct"; TId "Example"; TOther "*"; TId "ex"; TOther "="; TLParen;
       TId "struct"; TId "Example"; TOther "*"; TRParen; TId "malloc";
       TLParen; TId "sizeof"; TLParen; TId "struct"; TId "Example"; TRParen;
       TRParen; TOther ";";
    TId "ex"; TOther "->"; TId "name"; TOther "="; TId "name"; TOther ";";
       TId "ex"; TOther "->"; TId "id"; TOther "="; TId "id"; TOther ";";
    TId "return"; TId "ex"; TOther ";";
    TOther "}";
    TId "void"; TId "example_delete"; TLParen; TId "memory_owner";
       TId "struct"; TId "Example"; TOther "*"; TId "ex"; TRParen;
       TOther "{";
    TId "free"; TLParen; TId "ex"; TOther "->"; TId "id"; TRParen;
       TOther ";";
    TId "free"; TLParen; TId "ex"; TRParen; TOther ";";
    TOther "}";
    TId "memory_guarded"; TId "char"; TOther "*"; TId "example_id"; TLParen;
       TId "memory_guarded"; TId "struct"; TId "Example"; TOther "*";
       TId "ex"; TRParen; TOther "{";
    TId "return"; TId "ex"; TOther "->"; TId "id"; TOther ";";
    TOther "}"].

(** The same text with the annotations left out. *)
Definition unannotated (ts : list token) : list token :=
  List.filter (fun t =>
    match t with
    | TId x => bool_decide (x ∉ object_annotations)
    | _ => true
    end) ts.

(** Each short form with the annotation it abbreviates. *)
Definition short_forms : list (string * string) :=
  [("m_g", "memory_guarded"); ("m_o", "memory_owner");
   ("m_t", "memory_take_possession"); ("m_o_", "memory_owner_of");
   ("m_rc", "memory_ref_count"); ("m_io", "memory_ptr_inout");
   ("m_out", "memory_ptr_out")].

Fixpoint rename (l : list (string * string)) (x : string) : string :=
  match l with
  | [] => x
  | (s, n) :: l' => if decide (s = x) then n else rename l' x
  end.

(** A program written with short forms, rewritten with the long ones. *)
Definition long_name (x : string) : string := rename short_forms x.

Definition to_long (t : token) : token :=
  match t with
  | TId x => TId (long_name x)
  | _ => t
  end.

(** A diagnostic names the macro whose invocation is wrong. *)
Definition to_long_error (e : cpp_error) : cpp_error :=
  match e with
  | UnterminatedArguments x => UnterminatedArguments (long_name x)
  | WrongArgumentCount x => WrongArgumentCount (long_name x)
  | _ => e
  end.

Definition to_long_res (r : res (list token)) : res (list token) :=
  match r with
  | Done ts => Done (map to_long ts)
  | Fail e => Fail (to_long_error e)
  | OutOfFuel => OutOfFuel
  end.

(** ** Uses and misuses of the macros *)

(** The four macros that take a parameter, and the six short forms that
    take none. *)
Definition one_parameter_macros : list string :=
  ["memory_release_after_of"; "memory_owner_of"; "m_o_"; "memory_cleanup_"].

Definition object_short_forms : list string :=
  ["m_g"; "m_o"; "m_t"; "m_rc"; "m_io"; "m_out"].

(** An argument list as it is written: the arguments with a comma between
    them. *)
Fixpoint arguments (args : list (list token)) : list token :=
  match args with
  | [] => []
  | [a] => a
  | a :: args' => a ++ TComma :: arguments args'
  end.

(** A text in which the parenthesis of an invocation is never closed:
    read with [depth] inner parentheses open, no right parenthesis is met
    at depth 0. *)
Fixpoint unclosed (depth : nat) (ts : list token) : bool :=
  match ts with
  | [] => true
  | TLParen :: rest => unclosed (S depth) rest
  | TRParen :: rest =>
      match depth with
      | 0 => false
      | S d => unclosed d rest
      end
  | _ :: rest => unclosed depth rest
  end.

(** The names the header takes: the guard, and names that begin with [m_]
    or [memory_]. *)
Definition header_namespace (x : string) : bool :=
  String.prefix "m_" x || String.prefix "memory_" x || String.eqb x guard.

(** A scan that ended, with a diagnostic or with at most [bound]
    tokens. *)
Definition ends_within (r : res (list token)) (bound : nat) : Prop :=
  r <> OutOfFuel /\ forall out, r = Done out -> length out <= bound.

(** The [#define] lines of the header, between its [#ifndef] and its
    [#endif]. *)
Definition header_defines : list directive :=
  take 18 (drop 1 memory_notation_h).

Definition is_define (d : directive) : bool :=
  match d with
  | Define _ _ _ => true
  | _ => false
  end.

(** ** The example of the closing comment, as a program *)

(** The example is C that allocates and frees.  A pointer is null, or
    points to a string literal, which lives in static storage, or to a
    block that the allocator gave out. *)
Inductive pointer : Type :=
  | NULL
  | Literal (s : string)
  | Block (l : positive).

(** What a block holds: the characters of a string, or a
    [struct Example], each of whose two fields is [None] until it is
    assigned. *)
Inductive object : Type :=
  | Chars (s : string)
  | StructExample (name id : option pointer).

(** Undefined behaviour is made a fault. *)
Inductive fault : Type :=
  | NullDereference
  | DanglingPointer
  | InvalidFree
  | UninitializedField
  | WrongType.

Record machine : Type := Machine {
  heap : gmap positive object;
  stdout : string
}.

Inductive outcome (A : Type) : Type :=
  | Ok (a : A) (m : machine)
  | Fault (f : fault).

Arguments Ok {A} a m.
Arguments Fault {A} f.

Definition prog (A : Type) : Type := machine -> outcome A.

Definition ret {A : Type} (a : A) : prog A := fun m => Ok a m.

Definition seq {A B : Type} (p : prog A) (k : A -> prog B) : prog B :=
  fun m =>
    match p m with
    | Ok a m' => k a m'
    | Fault f => Fault f
    end.

Notation "'do*' x ':=' p 'in' k" := (seq p (fun x => k))
  (at level 10, x name, p at level 100, k at level 200).

Definition newline : string := String (Ascii.ascii_of_nat 10) "".

(** The characters [p] points to. *)
Definition string_at (p : pointer) : prog string := fun m =>
  match p with
  | NULL => Fault NullDereference
  | Literal s => Ok s m
  | Block l =>
      match heap m !! l with
      | Some (Chars s) => Ok s m
      | Some (StructExample _ _) => Fault WrongType
      | None => Fault DanglingPointer
      end
  end.

(** The [struct Example] that [ex] points to, for [ex->name] and
    [ex->id]. *)
Definition struct_at (ex : pointer)
    : prog (positive * option pointer * option pointer) := fun m =>
  match ex with
  | NULL => Fault NullDereference
  | Literal _ => Fault WrongType
  | Block l =>
      match heap m !! l with
      | Some (StructExample name id) => Ok (l, name, id) m
      | Some (Chars _) => Fault WrongType
      | None => Fault DanglingPointer
      end
  end.

(** [ex->id], read. *)
Definition get_id (ex : pointer) : prog pointer :=
  do* f := struct_at ex in
  match f.2 with
  | Some id => ret id
  | None => fun _ => Fault UninitializedField
  end.

(** [ex->name = v] and [ex->id = v]. *)
Definition set_name (ex v : pointer) : prog unit :=
  do* f := struct_at ex in
  fun m => Ok tt (Machine (<[f.1.1 := StructExample (Some v) f.2]> (heap m))
                    (stdout m)).

Definition set_id (ex v : pointer) : prog unit :=
  do* f := struct_at ex in
  fun m => Ok tt (Machine (<[f.1.1 := StructExample f.1.2 (Some v)]> (heap m))
                    (stdout m)).

(** [free(p)]: nothing for a null pointer; a block is given back; anything
    else is undefined. *)
Definition free (p : pointer) : prog unit := fun m =>
  match p with
  | NULL => Ok tt m
  | Literal _ => Fault InvalidFree
  | Block l =>
      match heap m !! l with
      | Some _ => Ok tt (Machine (delete l (heap m)) (stdout m))
      | None => Fault InvalidFree
      end
  end.

(** [printf("%s\n", p)]. *)
Definition printf_line (p : pointer) : prog unit :=
  do* s := string_at p in
  fun m => Ok tt (Machine (heap m) (stdout m +:+ s +:+ newline)).

Section example_program.
(** The allocator: the block it gives out for what is to be stored, in a
    given heap, or [None] when it has no memory for it. *)
Variable alloc : object -> gmap positive object -> option positive.

(** [malloc], which returns a block holding [content], or a null
    pointer. *)
Definition malloc (content : object) : prog pointer := fun m =>
  match alloc content (heap m) with
  | Some l => Ok (Block l) (Machine (<[l := content]> (heap m)) (stdout m))
  | None => Ok NULL m
  end.

Definition strdup (p : pointer) : prog pointer :=
  do* s := string_at p in malloc (Chars s).

Definition example_new (name id : pointer) : prog pointer :=
  do* ex := malloc (StructExample None None) in
  do* _ := set_name ex name in
  do* _ := set_id ex id in
  ret ex.

Definition example_delete (ex : pointer) : prog unit :=
  do* id := get_id ex in
  do* _ := free id in
  free ex.

Definition example_id (ex : pointer) : prog pointer := get_id ex.

Definition main : prog nat :=
  let name := Literal "Hello" in
  do* world := strdup (Literal "World") in
  do* ex := example_new name world in
  do* id := example_id ex in
  do* _ := printf_line id in
  do* _ := example_delete ex in
  ret 0.
End example_program.

(** An allocator that never fails: the first block that is not in use. *)
Definition first_free (content : object) (h : gmap positive object)
    : option positive :=
  Some (fresh (dom h)).

(** The [Redefined] diagnostics a run of definitions [defs] gives over a
    table [T]: read one after the other, each definition is compared with
    what the table holds for its name at that point. *)
Fixpoint redefinitions (T : gmap string macro) (defs : list (string * macro))
    : list cpp_error :=
  match defs with
  | [] => []
  | (n, m) :: defs' =>
      match T !! n with
      | Some m' => if decide (m' = m) then [] else [Redefined n]
      | None => []
      end ++ redefinitions (<[n := m]> T) defs'
  end.

(** The definitions of [defs] to whose name the table [T] gives another
    definition, each as the diagnostic [Redefined]. *)
Definition conflicts (T : gmap string macro) (defs : list (string * macro))
    : list cpp_error :=
  omap (fun nm : string * macro =>
    match T !! nm.1 with
    | Some m' => if decide (m' = nm.2) then None else Some (Redefined nm.1)
    | None => None
    end) defs.

(** * Properties *)

(** ** The monad and the scan *)

Lemma rmap_id_cons_nil (m : res (list token)) :
  bind m (fun more => Done ([] ++ more)) = m.
Proof. by destruct m. Qed.

Lemma run_app fuel (ds1 ds2 : list directive) st :
  run fuel (ds1 ++ ds2) st =
  bind (run fuel ds1 st) (fun st' => run fuel ds2 st').
Proof.
  revert st. induction ds1 as [|d ds1 IH]; intros st; simpl; [done|].
  destruct (step fuel st d); simpl; auto.
Qed.

(** ** The macro table of the header *)

Lemma lookup_list_to_map (l : list (string * macro)) (x : string) :
  (list_to_map l : gmap string macro) !! x = lookup_def l x.
Proof.
  induction l as [|[n m] l IH]; simpl.
  - apply lookup_empty.
  - rewrite lookup_insert. by destruct (decide (n = x)).
Qed.

Lemma header_macros_defines :
  header_macros = list_to_map (defines_of memory_notation_h).
Proof. apply (bool_decide_unpack _). vm_compute. exact I. Qed.

Lemma header_lookup (x : string) :
  header_macros !! x = lookup_def (defines_of memory_notation_h) x.
Proof. rewrite header_macros_defines. apply lookup_list_to_map. Qed.

(** From here on the table is looked up through [header_lookup] or by
    evaluation, never by unfolding it in place. *)
#[local] Opaque header_macros.

(** Every macro of the header is of one of three shapes. *)
Lemma header_macro_cases (x : string) (m : macro) :
  header_macros !! x = Some m ->
  m = Macro None [] \/
  m = Macro (Some ["mem"]) [] \/
  (x = "memory_cleanup_" /\ m = Macro (Some ["f"]) (cleanup_body (TId "f"))).
Proof.
  rewrite header_lookup. simpl.
  repeat (case_decide; [intros [= <-]; subst; auto|]).
  discriminate.
Qed.

(** ** The include guard *)

(** In a group that is being skipped the header changes nothing. *)
Lemma header_in_skipped_group fuel st :
  skipping st = true -> run fuel memory_notation_h st = Done st.
Proof.
  destruct st as [T cs dl out ws]. unfold skipping. simpl.
  destruct cs as [|[] cs]; try discriminate. intros _. reflexivity.
Qed.

(** After the [#ifndef] was not taken, the rest of the header is skipped. *)
Lemma header_rest_skipped fuel T cs dl out ws :
  run fuel (drop 1 memory_notation_h) (State T (false :: cs) dl out ws) =
  Done (State T cs dl out ws).
Proof. reflexivity. Qed.

(** Once the guard is a macro the header changes nothing either. *)
Lemma header_when_guarded fuel st :
  is_Some (macros st !! guard) -> run fuel memory_notation_h st = Done st.
Proof.
  intros Hg. destruct (skipping st) eqn:Hs.
  { by apply header_in_skipped_group. }
  change memory_notation_h
    with ([Ifndef guard] ++ drop 1 memory_notation_h).
  rewrite run_app.
  assert (run fuel [Ifndef guard] st =
          Done (State (macros st) (false :: conds st) (defined st)
                  (output st) (warnings st))) as ->.
  { unfold run, step, bind. rewrite Hs.
    rewrite bool_decide_eq_false_2; [done|].
    intros E. rewrite E in Hg. by destruct Hg. }
  unfold bind. rewrite header_rest_skipped. by destruct st.
Qed.

Lemma step_keeps_macro fuel g d st st' :
  d <> Undef g -> step fuel st d = Done st' ->
  is_Some (macros st !! g) -> is_Some (macros st' !! g).
Proof.
  intros Hd Hstep Hg. destruct d as [n|n ps body|n| |ts]; simpl in Hstep.
  - by injection Hstep as <-.
  - destruct (skipping st); [by injection Hstep as <-|].
    injection Hstep as <-. simpl.
    rewrite lookup_insert. by case_decide.
  - destruct (skipping st); [by injection Hstep as <-|].
    injection Hstep as <-. simpl.
    rewrite lookup_delete_ne; [done|]. congruence.
  - destruct (conds st); [discriminate|]. by injection Hstep as <-.
  - destruct (skipping st); [by injection Hstep as <-|].
    destruct (expand fuel (macros st) ∅ ts); try discriminate.
    by injection Hstep as <-.
Qed.

Lemma run_keeps_macro fuel g ds st st' :
  Undef g ∉ ds -> run fuel ds st = Done st' ->
  is_Some (macros st !! g) -> is_Some (macros st' !! g).
Proof.
  revert st. induction ds as [|d ds IH]; intros st Hds Hrun Hg; simpl in Hrun.
  - by injection Hrun as <-.
  - destruct (step fuel st d) as [st1| |] eqn:E; try discriminate.
    simpl in Hrun. apply (IH st1); [set_solver|done|].
    eapply step_keeps_macro; [|exact E|exact Hg]. set_solver.
Qed.

(** Outside a skipped group, the header leaves its guard defined. *)
Lemma header_defines_guard fuel st st' :
  skipping st = false -> run fuel memory_notation_h st = Done st' ->
  is_Some (macros st' !! guard).
Proof.
  intros Hs Hrun.
  change memory_notation_h
    with ([Ifndef guard; Define guard None []] ++ drop 2 memory_notation_h)
    in Hrun.
  rewrite run_app in Hrun.
  destruct (run fuel [Ifndef guard; Define guard None []] st)
    as [st1| |] eqn:E; try discriminate.
  cbn [bind] in Hrun.
  eapply run_keeps_macro; [|exact Hrun|].
  { apply (bool_decide_unpack _). vm_compute. exact I. }
  clear Hrun. cbn [run] in E. unfold step at 1 in E. rewrite Hs in E.
  cbn [bind] in E.
  destruct (macros st !! guard) as [m|] eqn:ET.
  - rewrite bool_decide_eq_false_2 in E by done.
    unfold step, skipping in E. cbn in E.
    injection E as <-. cbn. by rewrite ET.
  - rewrite bool_decide_eq_true_2 in E by done.
    unfold step, skipping in E. cbn in E. fold guard in E.
    rewrite ET in E. injection E as <-. cbn.
    by rewrite lookup_insert_eq.
Qed.

(** Included first thing in a translation unit, the header completes
    whatever the fuel (it has no text to expand) and executes each of its
    eighteen [#define] directives once. *)
Lemma header_from_init fuel :
  run fuel memory_notation_h init =
  Done (State header_macros [] (map fst (defines_of memory_notation_h)) []
          []).
Proof.
  change (run fuel memory_notation_h init)
    with (run 0 memory_notation_h init).
  apply (bool_decide_unpack _). vm_compute. exact I.
Qed.

(** C10: including the header again is idempotent.  When the header has
    been included outside a skipped group and the text [mid] that follows
    does not [#undef] the guard, a further inclusion leaves the whole
    state as it is: the same macro table, no [#define] executed (so no
    redefinition), the same output.  With [mid] empty this is the header
    included twice in a row. *)
Theorem include_guard_idempotent fuel st mid st' :
  skipping st = false ->
  Undef guard ∉ mid ->
  run fuel (memory_notation_h ++ mid) st = Done st' ->
  run fuel (memory_notation_h ++ mid ++ memory_notation_h) st = Done st'.
Proof.
  intros Hs Hmid Hrun. rewrite run_app in Hrun |- *.
  destruct (run fuel memory_notation_h st) as [st1| |] eqn:E1;
    try discriminate.
  cbn [bind] in Hrun |- *. rewrite run_app, Hrun. cbn [bind].
  apply header_when_guarded.
  eapply run_keeps_macro; [exact Hmid|exact Hrun|].
  eapply header_defines_guard; eauto.
Qed.

(** The state after one inclusion from the initial state, with the text
    [m_o char] after it. *)
Lemma include_guard_idempotent_witness :
  let mid := [Text [TId "m_o"; TId "char"]] in
  let st' := State header_macros []
               (map fst (defines_of memory_notation_h)) [TId "char"] [] in
  skipping init = false /\
  Undef guard ∉ mid /\
  run 3 (memory_notation_h ++ mid) init = Done st' /\
  run 3 (memory_notation_h ++ mid ++ memory_notation_h) init = Done st'.
Proof.
  cbv zeta.
  assert (Undef guard ∉ [Text [TId "m_o"; TId "char"]]) as Hmid.
  { apply (bool_decide_unpack _). vm_compute. exact I. }
  assert (run 3 (memory_notation_h ++ [Text [TId "m_o"; TId "char"]]) init =
          Done (State header_macros []
                  (map fst (defines_of memory_notation_h)) [TId "char"] []))
    as Hrun.
  { apply (bool_decide_unpack _). vm_compute. exact I. }
  split; [reflexivity|]. split; [exact Hmid|]. split; [exact Hrun|].
  exact (include_guard_idempotent 3 init [Text [TId "m_o"; TId "char"]] _
           eq_refl Hmid Hrun).
Defined.

(** ** The equations of [expand] *)

Section Expand.
Variable T : gmap string macro.
Variable hide : gset string.

Lemma expand_nil fuel : expand fuel T hide [] = Done [].
Proof. by destruct fuel. Qed.

Lemma expand_keep fuel x rest :
  x ∉ hide -> T !! x = None ->
  expand (S fuel) T hide (TId x :: rest) =
  rmap (cons (TId x)) (expand fuel T hide rest).
Proof.
  intros Hx HT. cbn [expand]. rewrite HT.
  by destruct (decide (x ∈ hide)).
Qed.

Lemma expand_object fuel x body rest :
  x ∉ hide -> T !! x = Some (Macro None body) ->
  expand (S fuel) T hide (TId x :: rest) =
  let* out := expand fuel T ({[x]} ∪ hide) body in
  let* more := expand fuel T hide rest in
  Done (out ++ more).
Proof.
  intros Hx HT. cbn [expand]. rewrite HT.
  by destruct (decide (x ∈ hide)).
Qed.

Lemma expand_call fuel x ps body rest args rest' env :
  x ∉ hide -> T !! x = Some (Macro (Some ps) body) ->
  collect_args 0 [] [] rest = Some (args, rest') ->
  bind_args ps args = Some env ->
  expand (S fuel) T hide (TId x :: TLParen :: rest) =
  let* env' :=
    map_res (fun pa : string * list token =>
      if uses pa.1 body
      then rmap (pair pa.1) (expand fuel T hide pa.2)
      else Done (pa.1, [])) env in
  let* out := expand fuel T ({[x]} ∪ hide) (subst env' body) in
  let* more := expand fuel T hide rest' in
  Done (out ++ more).
Proof.
  intros Hx HT Hc Hb. cbn [expand]. rewrite HT, Hc, Hb.
  by destruct (decide (x ∈ hide)).
Qed.

Lemma expand_lparen fuel rest :
  expand (S fuel) T hide (TLParen :: rest) =
  rmap (cons TLParen) (expand fuel T hide rest).
Proof. reflexivity. Qed.

Lemma expand_rparen fuel rest :
  expand (S fuel) T hide (TRParen :: rest) =
  rmap (cons TRParen) (expand fuel T hide rest).
Proof. reflexivity. Qed.

Lemma expand_painted fuel x rest :
  x ∈ hide ->
  expand (S fuel) T hide (TId x :: rest) =
  rmap (cons (TPainted x)) (expand fuel T hide rest).
Proof. intros Hx. cbn [expand]. by destruct (decide (x ∈ hide)). Qed.

Lemma expand_unapplied fuel x ps body rest :
  x ∉ hide -> T !! x = Some (Macro (Some ps) body) ->
  (forall rest', rest <> TLParen :: rest') ->
  expand (S fuel) T hide (TId x :: rest) =
  rmap (cons (TId x)) (expand fuel T hide rest).
Proof.
  intros Hx HT Hrest. cbn [expand]. rewrite HT.
  destruct (decide (x ∈ hide)); [done|].
  destruct rest as [|[] rest']; try done. by destruct (Hrest rest').
Qed.

(** The invocation of a macro of one parameter. *)
Lemma expand_call_one fuel x p body rest :
  x ∉ hide -> T !! x = Some (Macro (Some [p]) body) ->
  expand (S fuel) T hide (TId x :: TLParen :: rest) =
  match collect_args 0 [] [] rest with
  | None => Fail (UnterminatedArguments x)
  | Some ([a], rest') =>
      let* a' := (if uses p body then expand fuel T hide a
                  else Done []) in
      let* out := expand fuel T ({[x]} ∪ hide) (subst [(p, a')] body) in
      let* more := expand fuel T hide rest' in
      Done (out ++ more)
  | Some (_, _) => Fail (WrongArgumentCount x)
  end.
Proof.
  intros Hx HT. cbn [expand]. rewrite HT.
  destruct (decide (x ∈ hide)); [done|].
  destruct (collect_args 0 [] [] rest) as [[args rest']|]; [|done].
  destruct args as [|a [|b args]]; try done.
  change (bind_args [p] [a]) with (Some [(p, a)]).
  cbn [map_res fst snd]. destruct (uses p body); [|done].
  by destruct (expand fuel T hide a).
Qed.
End Expand.

(** ** Reading one argument *)

Lemma collect_args_argument mem : forall depth depth' cur acc rest,
  arg_depth depth mem = Some depth' ->
  collect_args depth cur acc (mem ++ rest) =
  collect_args depth' (rev mem ++ cur) acc rest.
Proof.
  induction mem as [|t mem IH]; intros depth depth' cur acc rest H.
  - simpl in *. by injection H as <-.
  - simpl rev. rewrite <- app_assoc. simpl app.
    destruct t; simpl in H |- *;
      try (destruct depth; [discriminate|]); by apply IH.
Qed.

Lemma collect_one_argument mem rest :
  is_argument mem = true ->
  collect_args 0 [] [] (mem ++ TRParen :: rest) = Some ([mem], rest).
Proof.
  intros H. apply bool_decide_eq_true_1 in H.
  rewrite (collect_args_argument mem 0 0 [] [] _ H).
  simpl. by rewrite app_nil_r, rev_involutive.
Qed.

(** ** The annotations are erased *)

Lemma object_annotation_erased name fuel rest :
  header_macros !! name = Some (Macro None []) ->
  expand (S fuel) header_macros ∅ (TId name :: rest) =
  expand fuel header_macros ∅ rest.
Proof.
  intros HT. rewrite (expand_object _ _ _ _ [] _ (not_elem_of_empty _) HT).
  rewrite expand_nil. cbn [bind]. apply rmap_id_cons_nil.
Qed.

Lemma function_annotation_erased name fuel mem rest :
  header_macros !! name = Some (Macro (Some ["mem"]) []) ->
  is_argument mem = true ->
  expand (S fuel) header_macros ∅
    (TId name :: TLParen :: mem ++ TRParen :: rest) =
  expand fuel header_macros ∅ rest.
Proof.
  intros HT Hmem.
  rewrite (expand_call _ _ _ _ _ _ _ _ _ [("mem", mem)]
             (not_elem_of_empty _) HT (collect_one_argument _ _ Hmem)
             eq_refl).
  cbn. rewrite expand_nil. cbn [bind]. apply rmap_id_cons_nil.
Qed.

(** Every identifier that macro replacement leaves in its output is not
    an object-like macro of the header: it is no macro at all, or the name
    of a function-like macro that was written without an argument list. *)
Lemma expand_leaves_no_object_macro fuel : forall (hide : gset string) ts out,
  expand fuel header_macros hide ts = Done out ->
  forall x body, TId x ∈ out ->
    header_macros !! x <> Some (Macro None body).
Proof.
  induction fuel as [|fuel IH]; intros hide ts out Hout x body Hin.
  { destruct ts; [|discriminate Hout]. injection Hout as <-.
    destruct (proj1 (elem_of_nil _) Hin). }
  destruct ts as [|t rest].
  { injection Hout as <-. destruct (proj1 (elem_of_nil _) Hin). }
  assert (forall t', (forall y, t' = TId y ->
                        forall b, header_macros !! y <> Some (Macro None b)) ->
            rmap (cons t') (expand fuel header_macros hide rest) = Done out ->
            header_macros !! x <> Some (Macro None body)) as Hkeep.
  { intros t' Ht' Hr.
    destruct (expand fuel header_macros hide rest) as [out'| |] eqn:E;
      try discriminate Hr.
    injection Hr as <-. apply elem_of_cons in Hin as [<-|Hin].
    - exact (Ht' _ eq_refl body).
    - exact (IH hide rest out' E x body Hin). }
  assert (forall hide1 ts1 hide2 ts2,
            (let* o := expand fuel header_macros hide1 ts1 in
             let* more := expand fuel header_macros hide2 ts2 in
             Done (o ++ more)) = Done out ->
            header_macros !! x <> Some (Macro None body)) as Happ.
  { intros hide1 ts1 hide2 ts2 Hr.
    destruct (expand fuel header_macros hide1 ts1) as [o| |] eqn:Ea;
      try discriminate Hr.
    destruct (expand fuel header_macros hide2 ts2) as [more| |] eqn:Eb;
      try discriminate Hr.
    injection Hr as <-. apply elem_of_app in Hin as [Hin|Hin].
    - exact (IH hide1 ts1 o Ea x body Hin).
    - exact (IH hide2 ts2 more Eb x body Hin). }
  assert (forall t', (forall y, t' <> TId y) ->
            forall y, t' = TId y ->
            forall b, header_macros !! y <> Some (Macro None b)) as Hother.
  { intros t' Ht' y E. destruct (Ht' y E). }
  destruct t as [y|y| | | |s];
    try (match type of Hout with
         | expand _ _ _ (?t' :: _) = _ =>
             exact (Hkeep t' (Hother t' ltac:(intros ? E; discriminate E))
                      Hout)
         end).
  destruct (decide (y ∈ hide)) as [Hy|Hy].
  { rewrite (expand_painted _ _ _ _ _ Hy) in Hout.
    exact (Hkeep _ (Hother (TPainted y) ltac:(intros ? E; discriminate E))
             Hout). }
  assert (forall m, (forall b, m <> Macro None b) ->
            header_macros !! y = Some m ->
            forall z, TId y = TId z ->
            forall b, header_macros !! z <> Some (Macro None b)) as Hfun.
  { intros m Hm HT z [= <-] b E. rewrite HT in E.
    injection E as ->. exact (Hm b eq_refl). }
  destruct (header_macros !! y) as [[[ps|] b]|] eqn:HT.
  - assert (forall b', Macro (Some ps) b <> Macro None b') as Hm
      by (intros b' E; discriminate E).
    pose proof (Hfun _ Hm eq_refl) as Hy'.
    destruct rest as [|t' rest'].
    { rewrite (expand_unapplied _ _ _ _ _ _ [] Hy HT) in Hout
        by discriminate.
      exact (Hkeep _ Hy' Hout). }
    destruct (decide (t' = TLParen)) as [->|Ht'].
    + assert (exists p, ps = [p]) as [p ->].
      { destruct (header_macro_cases y _ HT) as [E|[E|[_ E]]];
          [discriminate E|injection E as -> _|injection E as -> _]; eauto. }
      rewrite (expand_call_one _ _ _ _ _ _ _ Hy HT) in Hout.
      destruct (collect_args 0 [] [] rest') as [[args rest'']|];
        [|discriminate Hout].
      destruct args as [|a [|? ?]]; try discriminate Hout.
      destruct (if uses p b then expand fuel header_macros hide a
                else Done []) as [a'| |]; try discriminate Hout.
      cbn [bind] in Hout. exact (Happ _ _ _ _ Hout).
    + rewrite (expand_unapplied _ _ _ _ _ _ (t' :: rest') Hy HT) in Hout.
      2:{ intros r [= E _]. exact (Ht' E). }
      exact (Hkeep _ Hy' Hout).
  - rewrite (expand_object _ _ _ _ _ _ Hy HT) in Hout.
    exact (Happ _ _ _ _ Hout).
  - rewrite (expand_keep _ _ _ _ _ Hy HT) in Hout.
    apply (Hkeep (TId y)); [|exact Hout].
    intros z [= <-] b' E. rewrite HT in E. discriminate E.
Qed.

Lemma object_annotations_lookup name :
  name ∈ object_annotations ->
  header_macros !! name = Some (Macro None []).
Proof.
  intros Hname. unfold object_annotations in Hname.
  repeat (apply elem_of_cons in Hname as [->|Hname]; [by vm_compute|]).
  destruct (proj1 (elem_of_nil _) Hname).
Qed.

Lemma function_annotations_lookup name :
  name ∈ function_annotations ->
  header_macros !! name = Some (Macro (Some ["mem"]) []).
Proof.
  intros Hname. unfold function_annotations in Hname.
  repeat (apply elem_of_cons in Hname as [->|Hname]; [by vm_compute|]).
  destruct (proj1 (elem_of_nil _) Hname).
Qed.

(** C1: every annotation macro of the header has an empty replacement
    list; a use of one expands to the empty token sequence, and where
    other text follows it, that text is preprocessed as if the annotation
    had not been written.  For the two macros that take an argument this
    holds for every argument [mem].  No annotation without argument is
    ever left in preprocessed text, so the compiler never sees one. *)
Theorem annotations_erased :
  (forall name, name ∈ object_annotations ->
     header_macros !! name = Some (Macro None []) /\
     forall fuel,
       expand (S fuel) header_macros ∅ [TId name] = Done [] /\
       forall rest,
         expand (S fuel) header_macros ∅ (TId name :: rest) =
         expand fuel header_macros ∅ rest) /\
  (forall name, name ∈ function_annotations ->
     header_macros !! name = Some (Macro (Some ["mem"]) []) /\
     forall fuel mem, is_argument mem = true ->
       expand (S fuel) header_macros ∅
         (TId name :: TLParen :: mem ++ [TRParen]) = Done [] /\
       forall rest,
         expand (S fuel) header_macros ∅
           (TId name :: TLParen :: mem ++ TRParen :: rest) =
         expand fuel header_macros ∅ rest) /\
  (forall name fuel ts out, name ∈ object_annotations ->
     expand fuel header_macros ∅ ts = Done out ->
     TId name ∉ out).
Proof.
  split; [|split].
  - intros name Hname.
    pose proof (object_annotations_lookup name Hname) as HT.
    split; [exact HT|]. intros fuel. split.
    + rewrite (object_annotation_erased _ _ _ HT). apply expand_nil.
    + intros rest. exact (object_annotation_erased _ _ _ HT).
  - intros name Hname.
    pose proof (function_annotations_lookup name Hname) as HT.
    split; [exact HT|]. intros fuel mem Hmem. split.
    + rewrite (function_annotation_erased _ _ _ _ HT Hmem).
      apply expand_nil.
    + intros rest. exact (function_annotation_erased _ _ _ _ HT Hmem).
  - intros name fuel ts out Hname Hout Hin.
    exact (expand_leaves_no_object_macro fuel ∅ ts out Hout name [] Hin
             (object_annotations_lookup name Hname)).
Qed.

(** [memory_owner_of(ex->items[i])] at the head of a declaration. *)
Lemma annotations_erased_witness :
  let mem := [TId "ex"; TOther "->"; TId "items"; TOther "["; TId "i";
              TOther "]"] in
  let decl := [TId "char"; TOther "*"; TId "id"; TOther ";"] in
  is_argument mem = true /\
  expand 1 header_macros ∅
    (TId "memory_owner_of" :: TLParen :: mem ++ [TRParen]) = Done [] /\
  expand 5 header_macros ∅
    (TId "memory_owner_of" :: TLParen :: mem ++ TRParen :: decl) =
  Done decl.
Proof.
  cbv zeta. split; [reflexivity|].
  pose proof (proj1 (proj2 annotations_erased) "memory_owner_of") as [_ H].
  { apply (bool_decide_unpack _). vm_compute. exact I. }
  destruct (H 0 [TId "ex"; TOther "->"; TId "items"; TOther "["; TId "i";
                 TOther "]"] eq_refl) as [H1 _].
  destruct (H 4 [TId "ex"; TOther "->"; TId "items"; TOther "["; TId "i";
                 TOther "]"] eq_refl) as [_ H2].
  split; [exact H1|]. rewrite H2. vm_compute. reflexivity.
Defined.

(** A translation unit that includes the header and then holds the
    header's own example preprocesses to the unannotated text of the
    example, which is also what that text gives in a translation unit
    that never includes the header. *)
Example header_example_erased :
  (let* st := preprocess 108 (memory_notation_h ++ [Text header_example]) in
   Done (output st)) = Done (unannotated header_example) /\
  (let* st := preprocess 108 [Text (unannotated header_example)] in
   Done (output st)) = Done (unannotated header_example) /\
  length header_example = 108 /\
  length (unannotated header_example) = 100.
Proof. repeat split; vm_compute; reflexivity. Qed.

(** ** The cleanup macro *)

Lemma header_cleanup :
  header_macros !! "memory_cleanup_" =
  Some (Macro (Some ["f"]) (cleanup_body (TId "f"))).
Proof. by vm_compute. Qed.

Lemma header_attribute_names :
  header_macros !! "__attribute__" = None /\
  header_macros !! "cleanup" = None.
Proof. by vm_compute. Qed.

(** Scanning the substituted replacement list again changes nothing: none
    of its identifiers is a macro of the header. *)
Lemma expand_cleanup_body fuel f :
  header_macros !! f = None ->
  expand (9 + fuel) header_macros {["memory_cleanup_"]}
    (cleanup_body (TId f)) =
  Done (cleanup_body (TId f)).
Proof.
  intros Hf. destruct header_attribute_names as [Ha Hc].
  assert (forall x, header_macros !! x = None ->
            x ∉ ({["memory_cleanup_"]} : gset string)) as Hhide.
  { intros x Hx ->%elem_of_singleton. by rewrite header_cleanup in Hx. }
  unfold cleanup_body. cbn [Nat.add].
  rewrite (expand_keep _ _ _ _ _ (Hhide _ Ha) Ha).
  rewrite !expand_lparen.
  rewrite (expand_keep _ _ _ _ _ (Hhide _ Hc) Hc).
  rewrite expand_lparen.
  rewrite (expand_keep _ _ _ _ _ (Hhide _ Hf) Hf).
  rewrite !expand_rparen, expand_nil. reflexivity.
Qed.

Lemma uses_cleanup_parameter : uses "f" (cleanup_body (TId "f")) = true.
Proof. vm_compute. reflexivity. Qed.

Lemma subst_cleanup_body (a : list token) :
  subst [("f", a)] (cleanup_body (TId "f")) =
  [TId "__attribute__"; TLParen; TLParen; TId "cleanup"; TLParen] ++
  a ++ [TRParen; TRParen; TRParen].
Proof. reflexivity. Qed.

Lemma cleanup_expansion f fuel rest :
  header_macros !! f = None ->
  expand (10 + fuel) header_macros ∅
    (TId "memory_cleanup_" :: TLParen :: TId f :: TRParen :: rest) =
  let* more := expand (9 + fuel) header_macros ∅ rest in
  Done (cleanup_body (TId f) ++ more).
Proof.
  intros Hf. change (10 + fuel) with (S (9 + fuel)).
  rewrite (expand_call _ _ _ _ _ _ (TId f :: TRParen :: rest)
             [[TId f]] rest [("f", [TId f])]
             (not_elem_of_empty _) header_cleanup eq_refl eq_refl).
  cbn [map_res fst snd].
  rewrite uses_cleanup_parameter.
  change (9 + fuel) with (S (8 + fuel)) at 1.
  rewrite (expand_keep _ _ _ _ _ (not_elem_of_empty _) Hf), expand_nil.
  cbn [rmap bind].
  rewrite subst_cleanup_body. cbn [app].
  rewrite (right_id_L ∅ (∪)).
  change (expand (9 + fuel) header_macros {["memory_cleanup_"]} ?ts)
    with (expand (9 + fuel) header_macros {["memory_cleanup_"]}
            (cleanup_body (TId f))).
  rewrite expand_cleanup_body by done. reflexivity.
Qed.

(** X14: of all the macros the header defines, [memory_cleanup_] is the
    only one whose replacement list is not empty, and for every identifier
    [f] that is not itself a macro of the header [memory_cleanup_(f)]
    expands to [__attribute__((cleanup(f)))], alone and in front of any
    text [rest].  What the compiler then does with the attribute is not
    the header's and is not stated here. *)
Theorem cleanup_is_the_only_mechanism :
  (forall name m, header_macros !! name = Some m ->
     m_body m <> [] <-> name = "memory_cleanup_") /\
  (forall f fuel, header_macros !! f = None ->
     expand (10 + fuel) header_macros ∅
       [TId "memory_cleanup_"; TLParen; TId f; TRParen] =
     Done [TId "__attribute__"; TLParen; TLParen; TId "cleanup"; TLParen;
           TId f; TRParen; TRParen; TRParen] /\
     forall rest,
       expand (10 + fuel) header_macros ∅
         (TId "memory_cleanup_" :: TLParen :: TId f :: TRParen :: rest) =
       let* more := expand (9 + fuel) header_macros ∅ rest in
       Done ([TId "__attribute__"; TLParen; TLParen; TId "cleanup"; TLParen;
              TId f; TRParen; TRParen; TRParen] ++ more)).
Proof.
  split.
  - intros name m Hm. split.
    + intros Hbody.
      destruct (header_macro_cases _ _ Hm) as [->|[->|[-> _]]];
        clear Hm; [by destruct Hbody..|reflexivity].
    + intros ->. rewrite header_cleanup in Hm. by injection Hm as <-.
  - intros f fuel Hf. split.
    + rewrite cleanup_expansion by done. by rewrite expand_nil.
    + intros rest. by apply cleanup_expansion.
Qed.

(** [memory_cleanup_(fclose_file) FILE *f] *)
Lemma cleanup_is_the_only_mechanism_witness :
  header_macros !! "fclose_file" = None /\
  expand 13 header_macros ∅
    [TId "memory_cleanup_"; TLParen; TId "fclose_file"; TRParen;
     TId "FILE"; TOther "*"; TId "f"] =
  Done [TId "__attribute__"; TLParen; TLParen; TId "cleanup"; TLParen;
        TId "fclose_file"; TRParen; TRParen; TRParen;
        TId "FILE"; TOther "*"; TId "f"].
Proof.
  split; [by vm_compute|].
  destruct (proj2 cleanup_is_the_only_mechanism "fclose_file" 3)
    as [_ H]; [by vm_compute|].
  rewrite H. vm_compute. reflexivity.
Defined.

(** ** Short forms and long forms *)

Lemma header_lookup_long (x : string) :
  header_macros !! long_name x = header_macros !! x.
Proof.
  unfold long_name, short_forms. cbn [rename].
  repeat (case_decide as E; [rewrite <- E; by vm_compute|clear E]).
  reflexivity.
Qed.

Lemma long_name_cleanup (x : string) :
  long_name x = "memory_cleanup_" -> x = "memory_cleanup_".
Proof.
  unfold long_name, short_forms. cbn [rename].
  repeat (case_decide; [discriminate|]). done.
Qed.

Lemma to_long_lparen t : to_long t = TLParen -> t = TLParen.
Proof. by destruct t. Qed.

Lemma collect_args_to_long ts : forall depth cur acc,
  collect_args depth (map to_long cur) (map (map to_long) acc)
    (map to_long ts) =
  match collect_args depth cur acc ts with
  | Some (args, rest) => Some (map (map to_long) args, map to_long rest)
  | None => None
  end.
Proof.
  induction ts as [|t ts IH]; intros depth cur acc; [done|].
  destruct t; cbn [map to_long collect_args];
    try (destruct depth);
    try match goal with
        | |- collect_args ?d _ _ _ =
             match collect_args _ (?t :: _) _ _ with _ => _ end =>
            exact (IH d (t :: cur) acc)
        end.
  - by rewrite map_rev, <- (map_rev to_long cur).
  - rewrite <- map_rev. exact (IH 0 [] (rev cur :: acc)).
Qed.

Lemma to_long_res_rmap t (r : res (list token)) :
  rmap (cons (to_long t)) (to_long_res r) = to_long_res (rmap (cons t) r).
Proof. by destruct r. Qed.

Lemma to_long_res_app (a b : res (list token)) :
  (let* out := to_long_res a in
   let* more := to_long_res b in Done (out ++ more)) =
  to_long_res (let* out := a in let* more := b in Done (out ++ more)).
Proof. destruct a, b; cbn; try done. by rewrite map_app. Qed.


(** Replacing macros commutes with spelling the short forms out.  The set
    [hide] is empty at the top and holds [memory_cleanup_] while the
    replacement list of that macro is scanned again. *)
Lemma expand_to_long fuel : forall (hide : gset string) ts,
  hide ⊆ {["memory_cleanup_"]} ->
  expand fuel header_macros hide (map to_long ts) =
  to_long_res (expand fuel header_macros hide ts).
Proof.
  induction fuel as [|fuel IH]; intros hide ts Hh.
  { by destruct ts. }
  destruct ts as [|t rest]; [done|].
  assert (forall t', to_long t' = t' ->
            expand (S fuel) header_macros hide (map to_long (t' :: rest)) =
            rmap (cons t') (expand fuel header_macros hide
                              (map to_long rest)) ->
            expand (S fuel) header_macros hide (t' :: rest) =
            rmap (cons t') (expand fuel header_macros hide rest) ->
            expand (S fuel) header_macros hide (map to_long (t' :: rest)) =
            to_long_res (expand (S fuel) header_macros hide (t' :: rest)))
    as Hkeep.
  { intros t' Ht' -> ->. rewrite IH by done.
    rewrite <- Ht' at 1. apply to_long_res_rmap. }
  destruct t as [x|x| | | |s]; try (by apply Hkeep).
  clear Hkeep.
  cbn [map to_long].
  destruct (decide (x ∈ hide)) as [Hx|Hx].
  { assert (x = "memory_cleanup_") as -> by set_solver.
    change (long_name "memory_cleanup_") with "memory_cleanup_".
    rewrite !expand_painted, IH by done.
    apply (to_long_res_rmap (TPainted "memory_cleanup_")). }
  assert (long_name x ∉ hide) as Hlx.
  { intros Hlx. assert (long_name x = "memory_cleanup_") as E by set_solver.
    pose proof (long_name_cleanup x E) as E'. congruence. }
  pose proof (header_lookup_long x) as HTl.
  destruct (header_macros !! x) as [m|] eqn:HT.
  2:{ rewrite !expand_keep, IH by done.
      apply (to_long_res_rmap (TId x)). }
  destruct (header_macro_cases x m HT) as [->|[->|[-> ->]]].
  - rewrite (expand_object _ _ _ _ _ _ Hlx HTl).
    rewrite (expand_object _ _ _ _ _ _ Hx HT).
    rewrite !expand_nil. cbn [bind]. rewrite !rmap_id_cons_nil. by apply IH.
  - destruct rest as [|t' rest'].
    { rewrite (expand_unapplied _ _ _ _ _ _ [] Hlx HTl) by done.
      rewrite (expand_unapplied _ _ _ _ _ _ [] Hx HT) by done.
      by rewrite !expand_nil. }
    destruct (decide (t' = TLParen)) as [->|Ht'].
    + cbn [map to_long].
      rewrite (expand_call_one _ _ _ _ _ _ _ Hlx HTl).
      rewrite (expand_call_one _ _ _ _ _ _ _ Hx HT).
      pose proof (collect_args_to_long rest' 0 [] []) as Hc.
      cbn [map] in Hc. rewrite Hc. clear Hc.
      destruct (collect_args 0 [] [] rest') as [[args rest'']|];
        [|reflexivity].
      destruct args as [|a [|b args]]; [reflexivity| |reflexivity].
      cbn [map]. change (uses "mem" []) with false. cbn [bind subst flat_map].
      rewrite !expand_nil. cbn [bind]. rewrite !rmap_id_cons_nil.
      by apply IH.
    + rewrite (expand_unapplied _ _ _ _ _ _ (map to_long (t' :: rest'))
                 Hlx HTl).
      2:{ intros r [= E _]. exact (Ht' (to_long_lparen _ E)). }
      rewrite (expand_unapplied _ _ _ _ _ _ (t' :: rest') Hx HT).
      2:{ intros r [= E _]. exact (Ht' E). }
      rewrite IH by done. apply (to_long_res_rmap (TId x)).
  - change (long_name "memory_cleanup_") with "memory_cleanup_" in *.
    destruct rest as [|t' rest'].
    { rewrite !(expand_unapplied _ _ _ _ _ _ [] Hx HT) by done.
      by rewrite !expand_nil. }
    destruct (decide (t' = TLParen)) as [->|Ht'].
    + cbn [map to_long].
      rewrite !(expand_call_one _ _ _ _ _ _ _ Hx HT).
      pose proof (collect_args_to_long rest' 0 [] []) as Hc.
      cbn [map] in Hc. rewrite Hc. clear Hc.
      destruct (collect_args 0 [] [] rest') as [[args rest'']|];
        [|reflexivity].
      destruct args as [|a [|b args]]; [reflexivity| |reflexivity].
      cbn [map]. rewrite uses_cleanup_parameter.
      rewrite (IH hide a Hh).
      destruct (expand fuel header_macros hide a) as [a'| |];
        cbn [bind to_long_res]; [|reflexivity..].
      rewrite !subst_cleanup_body.
      assert (forall pre post : list token,
                map to_long pre = pre -> map to_long post = post ->
                pre ++ map to_long a' ++ post =
                map to_long (pre ++ a' ++ post)) as Hsub.
      { intros pre post Hpre Hpost.
        by rewrite !map_app, Hpre, Hpost. }
      rewrite Hsub by reflexivity.
      rewrite (IH ({["memory_cleanup_"]} ∪ hide))
        by (apply union_least; [reflexivity|exact Hh]).
      rewrite (IH hide rest'' Hh).
      apply to_long_res_app.
    + rewrite (expand_unapplied _ _ _ _ _ _ (map to_long (t' :: rest'))
                 Hx HT).
      2:{ intros r [= E _]. exact (Ht' (to_long_lparen _ E)). }
      rewrite (expand_unapplied _ _ _ _ _ _ (t' :: rest') Hx HT).
      2:{ intros r [= E _]. exact (Ht' E). }
      rewrite IH by done.
      apply (to_long_res_rmap (TId "memory_cleanup_")).
Qed.

(** C9: each short form has the very definition of the annotation it
    abbreviates (the same parameters, the same empty replacement list), so
    a program written with short forms and the same program written with
    long forms are preprocessed alike: the two results agree up to the
    spelling of the names (and a diagnostic names the macro as the program
    spelled it), and they are the same token sequence whenever no short
    name is left in the output, which is the case unless [m_o_] is written
    without an argument list.  The macros of the header are its guard, the
    nine annotations, these seven short forms and [memory_cleanup_]:
    [memory_keep_alive] and [memory_release_after_of] have no short
    form. *)
Theorem short_forms_expand_as_long_forms :
  (forall s l, (s, l) ∈ short_forms ->
     is_Some (header_macros !! s) /\
     header_macros !! s = header_macros !! l) /\
  (forall fuel ts,
     expand fuel header_macros ∅ (map to_long ts) =
     to_long_res (expand fuel header_macros ∅ ts)) /\
  (forall fuel ts out,
     expand fuel header_macros ∅ ts = Done out ->
     map to_long out = out ->
     expand fuel header_macros ∅ (map to_long ts) = Done out) /\
  dom header_macros =
    list_to_set (guard :: "memory_cleanup_" :: object_annotations ++
                 function_annotations ++ short_forms.*1) /\
  ("memory_keep_alive" ∉ short_forms.*2) /\
  ("memory_release_after_of" ∉ short_forms.*2).
Proof.
  split; [|split; [|split; [|split; [|split]]]].
  - intros s l Hsl. unfold short_forms in Hsl.
    repeat (apply elem_of_cons in Hsl as [E|Hsl];
            [injection E as -> ->; split;
             [apply (bool_decide_unpack _)|]; by vm_compute|]).
    by apply elem_of_nil in Hsl.
  - intros fuel ts. by apply expand_to_long.
  - intros fuel ts out Hout Hlong.
    rewrite expand_to_long by done. rewrite Hout. cbn. by rewrite Hlong.
  - apply (bool_decide_unpack _). vm_compute. exact I.
  - apply (bool_decide_unpack _). vm_compute. exact I.
  - apply (bool_decide_unpack _). vm_compute. exact I.
Qed.

(** [m_o char *id; m_o_(id) int n] and the same with long forms. *)
Lemma short_forms_expand_as_long_forms_witness :
  let short := [TId "m_o"; TId "char"; TOther "*"; TId "id"; TOther ";";
                TId "m_o_"; TLParen; TId "id"; TRParen;
                TId "int"; TId "n"] in
  let long := [TId "memory_owner"; TId "char"; TOther "*"; TId "id";
               TOther ";";
               TId "memory_owner_of"; TLParen; TId "id"; TRParen;
               TId "int"; TId "n"] in
  let out := [TId "char"; TOther "*"; TId "id"; TOther ";";
              TId "int"; TId "n"] in
  map to_long short = long /\
  map to_long out = out /\
  expand 11 header_macros ∅ short = Done out /\
  expand 11 header_macros ∅ long = Done out.
Proof.
  cbv zeta. split; [reflexivity|]. split; [reflexivity|].
  split; [vm_compute; reflexivity|].
  apply (proj1 (proj2 (proj2 short_forms_expand_as_long_forms)) 11
           [TId "m_o"; TId "char"; TOther "*"; TId "id"; TOther ";";
            TId "m_o_"; TLParen; TId "id"; TRParen; TId "int"; TId "n"]).
  - vm_compute. reflexivity.
  - reflexivity.
Defined.

(** * More of the header's behaviour *)

(** ** Text that does not use the header *)

(** Text none of whose identifiers is a macro, or hidden, is left as it
    is. *)
Lemma expand_untouched (T : gmap string macro) (hide : gset string) ts :
  forall n,
  (forall x, TId x ∈ ts -> T !! x = None /\ x ∉ hide) ->
  length ts <= n ->
  expand n T hide ts = Done ts.
Proof.
  induction ts as [|t rest IH]; intros n Hts Hn.
  { apply expand_nil. }
  destruct n as [|n]; [cbn in Hn; lia|].
  assert (expand n T hide rest = Done rest) as Hrest.
  { apply IH; [|cbn in Hn; lia].
    intros x Hx. apply Hts. by apply list_elem_of_further. }
  destruct t as [x|x| | | |s]; try (cbn [expand]; by rewrite Hrest).
  destruct (Hts x (list_elem_of_here _ _)) as [HT Hx].
  by rewrite (expand_keep _ _ _ _ _ Hx HT), Hrest.
Qed.

Lemma header_names_in_namespace (x : string) :
  header_namespace x = false -> header_macros !! x = None.
Proof.
  rewrite header_lookup. cbn [defines_of omap lookup_def memory_notation_h].
  cbn. intros Hx.
  repeat (case_decide as E; [rewrite <- E in Hx; vm_compute in Hx;
                             discriminate Hx|clear E]).
  reflexivity.
Qed.

(** X1: the header takes no name outside its namespace.  Program text
    whose identifiers neither begin with [m_] or [memory_] nor are the
    guard is preprocessed to itself after the header is included. *)
Theorem text_outside_namespace_untouched ts n :
  (forall x, TId x ∈ ts -> header_namespace x = false) ->
  length ts <= n ->
  expand n header_macros ∅ ts = Done ts.
Proof.
  intros Hts Hn. apply expand_untouched; [|exact Hn].
  intros x Hx. split.
  - apply header_names_in_namespace. exact (Hts x Hx).
  - apply not_elem_of_empty.
Qed.

(** [free(ex->id); mem_copy(a, b);] *)
Lemma text_outside_namespace_untouched_witness :
  let ts := [TId "free"; TLParen; TId "ex"; TOther "->"; TId "id"; TRParen;
             TOther ";"; TId "mem_copy"; TLParen; TId "a"; TComma; TId "b";
             TRParen; TOther ";"] in
  (forall x, TId x ∈ ts -> header_namespace x = false) /\
  length ts <= 14 /\
  expand 14 header_macros ∅ ts = Done ts.
Proof.
  cbv zeta.
  assert (forall x,
            TId x ∈ [TId "free"; TLParen; TId "ex"; TOther "->"; TId "id";
                     TRParen; TOther ";"; TId "mem_copy"; TLParen; TId "a";
                     TComma; TId "b"; TRParen; TOther ";"] ->
            header_namespace x = false) as Hts.
  { intros x Hx.
    repeat (apply elem_of_cons in Hx as [Hx|Hx];
            [first [discriminate Hx|injection Hx as ->; reflexivity]|]).
    destruct (proj1 (elem_of_nil _) Hx). }
  assert (14 <= 14) as Hn by lia.
  split; [exact Hts|]. split; [exact Hn|].
  exact (text_outside_namespace_untouched _ 14 Hts Hn).
Defined.

(** ** The short forms are erased *)

Lemma object_short_forms_lookup name :
  name ∈ object_short_forms ->
  header_macros !! name = Some (Macro None []).
Proof.
  intros Hname. unfold object_short_forms in Hname.
  repeat (apply elem_of_cons in Hname as [->|Hname]; [by vm_compute|]).
  destruct (proj1 (elem_of_nil _) Hname).
Qed.

Lemma one_parameter_macros_lookup name :
  name ∈ one_parameter_macros ->
  exists p body, header_macros !! name = Some (Macro (Some [p]) body).
Proof.
  intros Hname. unfold one_parameter_macros in Hname.
  repeat (apply elem_of_cons in Hname as [->|Hname];
          [eexists _, _; by vm_compute|]).
  destruct (proj1 (elem_of_nil _) Hname).
Qed.

(** X2: the seven short forms are erased like the annotations they
    abbreviate.  A short form without parameter disappears in front of any
    text and is never left in preprocessed output; [m_o_(mem)] disappears
    for every argument [mem]. *)
Theorem short_forms_erased :
  (forall name, name ∈ object_short_forms ->
     (forall fuel rest,
        expand (S fuel) header_macros ∅ (TId name :: rest) =
        expand fuel header_macros ∅ rest) /\
     (forall fuel ts out,
        expand fuel header_macros ∅ ts = Done out -> TId name ∉ out)) /\
  (forall fuel mem rest, is_argument mem = true ->
     expand (S fuel) header_macros ∅
       (TId "m_o_" :: TLParen :: mem ++ TRParen :: rest) =
     expand fuel header_macros ∅ rest).
Proof.
  split.
  - intros name Hname.
    pose proof (object_short_forms_lookup name Hname) as HT. split.
    + intros fuel rest. exact (object_annotation_erased _ _ _ HT).
    + intros fuel ts out Hout Hin.
      exact (expand_leaves_no_object_macro fuel ∅ ts out Hout name [] Hin
               HT).
  - intros fuel mem rest Hmem.
    apply function_annotation_erased; [by vm_compute|exact Hmem].
Qed.

(** [m_o_(ex->id) m_g char *p;] *)
Lemma short_forms_erased_witness :
  is_argument [TId "ex"; TOther "->"; TId "id"] = true /\
  expand 6 header_macros ∅
    ([TId "m_o_"; TLParen] ++ [TId "ex"; TOther "->"; TId "id"] ++
     [TRParen; TId "m_g"; TId "char"; TOther "*"; TId "p"; TOther ";"]) =
  Done [TId "char"; TOther "*"; TId "p"; TOther ";"].
Proof.
  split; [reflexivity|].
  refine (eq_trans
            (proj2 short_forms_erased 5 [TId "ex"; TOther "->"; TId "id"]
               [TId "m_g"; TId "char"; TOther "*"; TId "p"; TOther ";"]
               eq_refl) _).
  vm_compute. reflexivity.
Defined.

(** ** Misuses of the macros that take a parameter *)

Lemma collect_args_arguments args : forall acc rest,
  args <> [] ->
  Forall (fun a => is_argument a = true) args ->
  collect_args 0 [] acc (arguments args ++ TRParen :: rest) =
  Some (rev acc ++ args, rest).
Proof.
  induction args as [|a args IH]; intros acc rest Hne Hargs; [done|].
  apply Forall_cons in Hargs as [Ha Hargs].
  apply bool_decide_eq_true_1 in Ha.
  destruct args as [|b args].
  - cbn [arguments].
    rewrite (collect_args_argument a 0 0 [] acc _ Ha).
    cbn [collect_args]. rewrite app_nil_r, rev_involutive.
    reflexivity.
  - change (arguments (a :: b :: args))
      with (a ++ TComma :: arguments (b :: args)).
    rewrite <- app_assoc.
    rewrite (collect_args_argument a 0 0 [] acc _ Ha).
    cbn [app collect_args]. rewrite app_nil_r, rev_involutive.
    rewrite (IH (a :: acc) rest ltac:(discriminate) Hargs).
    cbn [rev]. by rewrite <- app_assoc.
Qed.

(** X3: each of the four macros that take a parameter takes exactly one.
    An invocation with two or more arguments is refused with
    [WrongArgumentCount], whatever the arguments and whatever follows. *)
Theorem wrong_argument_count name args fuel rest :
  name ∈ one_parameter_macros ->
  2 <= length args ->
  Forall (fun a => is_argument a = true) args ->
  expand (S fuel) header_macros ∅
    (TId name :: TLParen :: arguments args ++ TRParen :: rest) =
  Fail (WrongArgumentCount name).
Proof.
  intros Hname Hlen Hargs.
  destruct (one_parameter_macros_lookup name Hname) as (p & body & HT).
  rewrite (expand_call_one _ _ _ _ _ _ _ (not_elem_of_empty _) HT).
  rewrite (collect_args_arguments args [] rest);
    [|intros ->; cbn in Hlen; lia|exact Hargs].
  cbn [rev app].
  destruct args as [|a [|b args]]; cbn in Hlen; [lia|lia|reflexivity].
Qed.

(** [memory_owner_of(ex, id)] *)
Lemma wrong_argument_count_witness :
  "memory_owner_of" ∈ one_parameter_macros /\
  expand 1 header_macros ∅
    [TId "memory_owner_of"; TLParen; TId "ex"; TComma; TId "id"; TRParen] =
  Fail (WrongArgumentCount "memory_owner_of").
Proof.
  assert ("memory_owner_of" ∈ one_parameter_macros) as Hname.
  { apply (bool_decide_unpack _). vm_compute. exact I. }
  split; [exact Hname|].
  assert (Forall (fun a => is_argument a = true) [[TId "ex"]; [TId "id"]])
    as Hargs by (repeat constructor).
  exact (wrong_argument_count "memory_owner_of" [[TId "ex"]; [TId "id"]] 0 []
           Hname (le_n 2) Hargs).
Defined.

(** X4: written without an argument list, a macro that takes a parameter
    is not invoked: its name stays in the text and reaches the compiler,
    also where it is the last token. *)
Theorem name_without_arguments_kept name fuel rest :
  name ∈ one_parameter_macros ->
  (forall rest', rest <> TLParen :: rest') ->
  expand (S fuel) header_macros ∅ (TId name :: rest) =
  let* more := expand fuel header_macros ∅ rest in
  Done (TId name :: more).
Proof.
  intros Hname Hrest.
  destruct (one_parameter_macros_lookup name Hname) as (p & body & HT).
  exact (expand_unapplied _ _ _ _ _ _ _ (not_elem_of_empty _) HT Hrest).
Qed.

(** [memory_cleanup_ int x;] *)
Lemma name_without_arguments_kept_witness :
  "memory_cleanup_" ∈ one_parameter_macros /\
  expand 4 header_macros ∅
    [TId "memory_cleanup_"; TId "int"; TId "x"; TOther ";"] =
  Done [TId "memory_cleanup_"; TId "int"; TId "x"; TOther ";"].
Proof.
  assert ("memory_cleanup_" ∈ one_parameter_macros) as Hname.
  { apply (bool_decide_unpack _). vm_compute. exact I. }
  split; [exact Hname|].
  rewrite (name_without_arguments_kept "memory_cleanup_" 3
             [TId "int"; TId "x"; TOther ";"] Hname
             ltac:(intros r E; discriminate E)).
  vm_compute. reflexivity.
Defined.

Lemma collect_args_unclosed ts : forall depth cur acc,
  unclosed depth ts = true -> collect_args depth cur acc ts = None.
Proof.
  induction ts as [|t ts IH]; intros depth cur acc H; [done|].
  destruct t; cbn [unclosed collect_args] in *;
    try (destruct depth; [first [discriminate H|by apply IH]|]);
    by apply IH.
Qed.

(** X5: an invocation whose parenthesis is not closed before the text
    ends is refused with [UnterminatedArguments]. *)
Theorem unterminated_invocation name fuel ts :
  name ∈ one_parameter_macros ->
  unclosed 0 ts = true ->
  expand (S fuel) header_macros ∅ (TId name :: TLParen :: ts) =
  Fail (UnterminatedArguments name).
Proof.
  intros Hname Hts.
  destruct (one_parameter_macros_lookup name Hname) as (p & body & HT).
  rewrite (expand_call_one _ _ _ _ _ _ _ (not_elem_of_empty _) HT).
  rewrite (collect_args_unclosed ts 0 [] [] Hts). reflexivity.
Qed.

(** [m_o_(f(x), y] *)
Lemma unterminated_invocation_witness :
  "m_o_" ∈ one_parameter_macros /\
  unclosed 0 [TId "f"; TLParen; TId "x"; TRParen; TComma; TId "y"] = true /\
  expand 1 header_macros ∅
    [TId "m_o_"; TLParen; TId "f"; TLParen; TId "x"; TRParen; TComma;
     TId "y"] =
  Fail (UnterminatedArguments "m_o_").
Proof.
  assert ("m_o_" ∈ one_parameter_macros) as Hname.
  { apply (bool_decide_unpack _). vm_compute. exact I. }
  split; [exact Hname|]. split; [reflexivity|].
  exact (unterminated_invocation "m_o_" 0
           [TId "f"; TLParen; TId "x"; TRParen; TComma; TId "y"]
           Hname eq_refl).
Defined.

(** ** The cleanup macro on any argument *)

(** X6: [memory_cleanup_(mem)] expands to [__attribute__((cleanup(mem)))]
    for every argument [mem] that mentions no macro of the header, an
    identifier or not, given fuel for the length of [mem]. *)
Theorem cleanup_of_any_argument mem rest fuel :
  is_argument mem = true ->
  (forall x, TId x ∈ mem -> header_macros !! x = None) ->
  length mem + 8 <= fuel ->
  expand (S fuel) header_macros ∅
    (TId "memory_cleanup_" :: TLParen :: mem ++ TRParen :: rest) =
  let* more := expand fuel header_macros ∅ rest in
  Done ([TId "__attribute__"; TLParen; TLParen; TId "cleanup"; TLParen] ++
        mem ++ [TRParen; TRParen; TRParen] ++ more).
Proof.
  intros Hmem Hfree Hfuel. destruct header_attribute_names as [Ha Hc].
  rewrite (expand_call_one _ _ _ _ _ _ _ (not_elem_of_empty _)
             header_cleanup).
  rewrite (collect_one_argument _ _ Hmem), uses_cleanup_parameter.
  rewrite (expand_untouched header_macros ∅ mem fuel).
  2:{ intros x Hx. split; [exact (Hfree x Hx)|apply not_elem_of_empty]. }
  2:{ lia. }
  cbn [bind]. rewrite subst_cleanup_body, (right_id_L ∅ (∪)).
  rewrite (expand_untouched header_macros {["memory_cleanup_"]} _ fuel).
  - cbn [bind]. destruct (expand fuel header_macros ∅ rest); try reflexivity.
    cbn [bind]. by rewrite <- !app_assoc.
  - assert (forall x, header_macros !! x = None ->
              header_macros !! x = None /\
              x ∉ ({["memory_cleanup_"]} : gset string)) as Hok.
    { intros x Hx. split; [exact Hx|].
      intros E%elem_of_singleton. rewrite E, header_cleanup in Hx.
      discriminate Hx. }
    intros x Hx. apply Hok.
    apply elem_of_app in Hx as [Hx|Hx].
    { repeat (apply elem_of_cons in Hx as [Hx|Hx];
              [first [discriminate Hx|injection Hx as ->; assumption]|]).
      destruct (proj1 (elem_of_nil _) Hx). }
    apply elem_of_app in Hx as [Hx|Hx]; [exact (Hfree x Hx)|].
    repeat (apply elem_of_cons in Hx as [Hx|Hx]; [discriminate Hx|]).
    destruct (proj1 (elem_of_nil _) Hx).
  - rewrite !length_app. cbn [length]. lia.
Qed.

(** [memory_cleanup_(ops.release) int fd] *)
Lemma cleanup_of_any_argument_witness :
  let mem := [TId "ops"; TOther "."; TId "release"] in
  is_argument mem = true /\
  (forall x, TId x ∈ mem -> header_macros !! x = None) /\
  expand 12 header_macros ∅
    (TId "memory_cleanup_" :: TLParen :: mem ++
     [TRParen; TId "int"; TId "fd"]) =
  Done [TId "__attribute__"; TLParen; TLParen; TId "cleanup"; TLParen;
        TId "ops"; TOther "."; TId "release"; TRParen; TRParen; TRParen;
        TId "int"; TId "fd"].
Proof.
  cbv zeta.
  assert (forall x, TId x ∈ [TId "ops"; TOther "."; TId "release"] ->
            header_macros !! x = None) as Hfree.
  { intros x Hx.
    repeat (apply elem_of_cons in Hx as [Hx|Hx];
            [first [discriminate Hx|injection Hx as ->; by vm_compute]|]).
    destruct (proj1 (elem_of_nil _) Hx). }
  split; [reflexivity|]. split; [exact Hfree|].
  refine (eq_trans
            (cleanup_of_any_argument [TId "ops"; TOther "."; TId "release"]
               [TId "int"; TId "fd"] 11 eq_refl Hfree ltac:(cbn; lia)) _).
  vm_compute. reflexivity.
Defined.

(** X15: given one of the header's own names as the cleanup function,
    [memory_cleanup_] does not hand that name on as it does any other
    identifier.  A name without parameter (an annotation, a short form, the
    guard) is erased before it is substituted, so that
    [memory_cleanup_(m_g)] expands to [__attribute__((cleanup()))]; a name
    with a parameter is kept, being written without an argument list, and
    [memory_cleanup_] itself is kept as a painted token. *)
Theorem cleanup_of_header_name :
  (forall a fuel rest,
     header_macros !! a = Some (Macro None []) ->
     expand (9 + fuel) header_macros ∅
       (TId "memory_cleanup_" :: TLParen :: TId a :: TRParen :: rest) =
     let* more := expand (8 + fuel) header_macros ∅ rest in
     Done ([TId "__attribute__"; TLParen; TLParen; TId "cleanup"; TLParen;
            TRParen; TRParen; TRParen] ++ more)) /\
  (forall g fuel rest,
     g ∈ one_parameter_macros ->
     expand (10 + fuel) header_macros ∅
       (TId "memory_cleanup_" :: TLParen :: TId g :: TRParen :: rest) =
     let* more := expand (9 + fuel) header_macros ∅ rest in
     Done ([TId "__attribute__"; TLParen; TLParen; TId "cleanup"; TLParen;
            (if decide (g = "memory_cleanup_") then TPainted g else TId g);
            TRParen; TRParen; TRParen] ++ more)).
Proof.
  destruct header_attribute_names as [Ha Hc].
  assert (forall x, header_macros !! x = None ->
            x ∉ ({["memory_cleanup_"]} : gset string)) as Hhide.
  { intros x Hx E%elem_of_singleton. rewrite E, header_cleanup in Hx.
    discriminate Hx. }
  split.
  - intros a fuel rest HT. change (9 + fuel) with (S (8 + fuel)).
    rewrite (expand_call_one _ _ _ _ _ _ _ (not_elem_of_empty _)
               header_cleanup).
    change (collect_args 0 [] [] (TId a :: TRParen :: rest))
      with (Some ([[TId a]], rest)).
    rewrite uses_cleanup_parameter.
    change (8 + fuel) with (S (7 + fuel)) at 1.
    rewrite (object_annotation_erased _ _ _ HT), expand_nil.
    cbn [bind]. rewrite subst_cleanup_body, (right_id_L ∅ (∪)).
    rewrite (expand_untouched header_macros {["memory_cleanup_"]}).
    + reflexivity.
    + intros x Hx.
      repeat (apply elem_of_cons in Hx as [Hx|Hx];
              [first [discriminate Hx
                     |injection Hx as ->; split; [|apply Hhide]; assumption]|]).
      destruct (proj1 (elem_of_nil _) Hx).
    + cbn [app length]. lia.
  - intros g fuel rest Hg.
    destruct (one_parameter_macros_lookup g Hg) as (p & body & HT).
    change (10 + fuel) with (S (9 + fuel)).
    rewrite (expand_call_one _ _ _ _ _ _ _ (not_elem_of_empty _)
               header_cleanup).
    change (collect_args 0 [] [] (TId g :: TRParen :: rest))
      with (Some ([[TId g]], rest)).
    rewrite uses_cleanup_parameter.
    change (9 + fuel) with (S (8 + fuel)) at 1.
    rewrite (expand_unapplied _ _ _ _ _ _ [] (not_elem_of_empty _) HT)
      by (intros r E; discriminate E).
    rewrite expand_nil. cbn [rmap bind].
    rewrite subst_cleanup_body, (right_id_L ∅ (∪)).
    cbn [app Nat.add].
    rewrite (expand_keep _ _ _ _ _ (Hhide _ Ha) Ha), !expand_lparen.
    rewrite (expand_keep _ _ _ _ _ (Hhide _ Hc) Hc), expand_lparen.
    destruct (decide (g = "memory_cleanup_")) as [->|Hne].
    + rewrite (expand_painted _ {["memory_cleanup_"]} _ _ _
                 (proj2 (elem_of_singleton _ _) eq_refl)).
      rewrite !expand_rparen, expand_nil. reflexivity.
    + rewrite (expand_unapplied _ {["memory_cleanup_"]} _ _ _ _ _
                 (fun E => Hne (proj1 (elem_of_singleton _ _) E)) HT)
        by (intros r E; discriminate E).
      rewrite !expand_rparen, expand_nil. reflexivity.
Qed.

(** [memory_cleanup_(m_g) int fd] *)
Lemma cleanup_of_header_name_witness :
  header_macros !! "m_g" = Some (Macro None []) /\
  expand 11 header_macros ∅
    [TId "memory_cleanup_"; TLParen; TId "m_g"; TRParen; TId "int";
     TId "fd"] =
  Done [TId "__attribute__"; TLParen; TLParen; TId "cleanup"; TLParen;
        TRParen; TRParen; TRParen; TId "int"; TId "fd"].
Proof.
  assert (header_macros !! "m_g" = Some (Macro None [])) as HT
    by (by vm_compute).
  split; [exact HT|].
  refine (eq_trans
            (proj1 cleanup_of_header_name "m_g" 2 [TId "int"; TId "fd"] HT)
            _).
  vm_compute. reflexivity.
Defined.

(** ** Macro replacement ends *)

Lemma list_sum_rev (l : list nat) : list_sum (rev l) = list_sum l.
Proof.
  induction l as [|x l IH]; [done|].
  cbn [rev]. rewrite list_sum_app, IH. unfold list_sum. simpl. lia.
Qed.

(** What [collect_args] returns is what it read: every argument, a comma
    or the closing parenthesis after each, and the text left over. *)
Lemma collect_args_length ts : forall depth cur acc args rest,
  collect_args depth cur acc ts = Some (args, rest) ->
  list_sum (map (fun a => S (length a)) args) + length rest =
  list_sum (map (fun a => S (length a)) acc) + length cur + length ts.
Proof.
  induction ts as [|t ts IH]; intros depth cur acc args rest H; [done|].
  destruct t; cbn [collect_args] in H;
    try (apply IH in H; cbn [length] in *; lia).
  - destruct depth.
    + injection H as <- <-.
      rewrite map_app, list_sum_app, map_rev, list_sum_rev.
      cbn [map length]. unfold list_sum at 2. cbn [fold_right].
      rewrite length_rev. lia.
    + apply IH in H. cbn [length] in *. lia.
  - destruct depth; apply IH in H; cbn [length map list_sum] in *.
    + change (list_sum (?x :: ?l)) with (x + list_sum l) in H.
      rewrite length_rev in H. lia.
    + lia.
Qed.

Lemma collect_one_length rest a rest' :
  collect_args 0 [] [] rest = Some ([a], rest') ->
  length rest = S (length a + length rest').
Proof. intros H%collect_args_length. cbn in H. lia. Qed.

Lemma ends_within_fail e bound : ends_within (Fail e) bound.
Proof. split; [intros E; discriminate E|intros out E; discriminate E]. Qed.

Lemma ends_within_le r b b' : ends_within r b -> b <= b' -> ends_within r b'.
Proof.
  intros [H1 H2] Hb. split; [exact H1|].
  intros out E. specialize (H2 out E). lia.
Qed.

Lemma ends_within_cons t r b :
  ends_within r b -> ends_within (rmap (cons t) r) (S b).
Proof.
  intros [H1 H2]. destruct r as [out| |]; [|apply ends_within_fail|done].
  split; [intros E; discriminate E|].
  intros out' [= <-]. specialize (H2 out eq_refl). cbn. lia.
Qed.

Lemma ends_within_app a b la lb :
  ends_within a la -> ends_within b lb ->
  ends_within (let* o := a in let* more := b in Done (o ++ more)) (la + lb).
Proof.
  intros [Ha1 Ha2] [Hb1 Hb2].
  destruct a as [o| |]; [|apply ends_within_fail|done].
  destruct b as [more| |]; [|apply ends_within_fail|done].
  split; [intros E; discriminate E|].
  intros out [= <-]. specialize (Ha2 o eq_refl). specialize (Hb2 more eq_refl).
  rewrite length_app. lia.
Qed.

(** With the macros of the header a scan ends: fuel for the length of the
    text is enough while [memory_cleanup_] is hidden (nothing can grow),
    fuel for three times the length otherwise. *)
Lemma expand_ends n : forall (hide : gset string) ts k,
  (k = 1 /\ "memory_cleanup_" ∈ hide) \/ k = 3 ->
  k * length ts <= n ->
  ends_within (expand n header_macros hide ts) (k * length ts).
Proof.
  induction n as [|n IH]; intros hide ts k Hk Hn.
  { destruct ts as [|t ts].
    - split; [intros E; discriminate E|]. intros out [= <-]. cbn. lia.
    - cbn [length] in Hn. rewrite Nat.mul_succ_r in Hn.
      destruct Hk as [[-> _]| ->]; lia. }
  destruct ts as [|t rest].
  { split; [intros E; discriminate E|]. intros out [= <-]. cbn. lia. }
  assert (1 <= k) as Hk1 by (destruct Hk as [[-> _]| ->]; lia).
  cbn [length] in Hn |- *. rewrite Nat.mul_succ_r in Hn |- *.
  assert (forall t',
            ends_within (rmap (cons t') (expand n header_macros hide rest))
              (k * length rest + k)) as Hkeep.
  { intros t'. eapply ends_within_le.
    - apply ends_within_cons, (IH hide rest k Hk). lia.
    - lia. }
  destruct t as [x|x| | | |s]; try exact (Hkeep _).
  destruct (decide (x ∈ hide)) as [Hx|Hx].
  { rewrite (expand_painted _ _ _ _ _ Hx). exact (Hkeep _). }
  destruct (header_macros !! x) as [m|] eqn:HT.
  2:{ rewrite (expand_keep _ _ _ _ _ Hx HT). exact (Hkeep _). }
  assert (forall ps body, m = Macro (Some ps) body ->
            (forall r, rest <> TLParen :: r) ->
            ends_within (expand (S n) header_macros hide (TId x :: rest))
              (k * length rest + k)) as Hun.
  { intros ps body -> Hr.
    rewrite (expand_unapplied _ _ _ _ _ _ _ Hx HT Hr). exact (Hkeep _). }
  destruct (header_macro_cases x m HT) as [->|[->|[-> ->]]].
  - rewrite (expand_object _ _ _ _ _ _ Hx HT), expand_nil.
    cbn [bind]. rewrite rmap_id_cons_nil.
    eapply ends_within_le; [apply (IH hide rest k Hk)|]; lia.
  - destruct rest as [|t' rest'].
    { apply (Hun _ _ eq_refl). intros r E. discriminate E. }
    destruct (decide (t' = TLParen)) as [->|Ht'].
    2:{ apply (Hun _ _ eq_refl). intros r [= E _]. exact (Ht' E). }
    rewrite (expand_call_one _ _ _ _ _ _ _ Hx HT).
    destruct (collect_args 0 [] [] rest') as [[args rest'']|] eqn:Hc;
      [|apply ends_within_fail].
    destruct args as [|a [|b args]];
      [apply ends_within_fail| |apply ends_within_fail].
    apply collect_one_length in Hc.
    change (uses "mem" []) with false. cbn [bind subst flat_map].
    rewrite expand_nil. cbn [bind]. rewrite rmap_id_cons_nil.
    cbn [length] in Hn |- *. rewrite Hc, !Nat.mul_succ_r, Nat.mul_add_distr_l
      in Hn |- *.
    eapply ends_within_le; [apply (IH hide rest'' k Hk)|]; lia.
  - assert (k = 3) as ->.
    { destruct Hk as [[_ Hc]| ->]; [destruct (Hx Hc)|reflexivity]. }
    destruct rest as [|t' rest'].
    { apply (Hun _ _ eq_refl). intros r E. discriminate E. }
    destruct (decide (t' = TLParen)) as [->|Ht'].
    2:{ apply (Hun _ _ eq_refl). intros r [= E _]. exact (Ht' E). }
    rewrite (expand_call_one _ _ _ _ _ _ _ Hx HT).
    destruct (collect_args 0 [] [] rest') as [[args rest'']|] eqn:Hc;
      [|apply ends_within_fail].
    destruct args as [|a [|b args]];
      [apply ends_within_fail| |apply ends_within_fail].
    apply collect_one_length in Hc.
    cbn [length] in Hn |- *. rewrite Hc in Hn |- *.
    rewrite uses_cleanup_parameter.
    destruct (IH hide a 3 (or_intror eq_refl) ltac:(lia)) as [Ha1 Ha2].
    destruct (expand n header_macros hide a) as [a'| |];
      [|apply ends_within_fail|destruct (Ha1 eq_refl)].
    specialize (Ha2 a' eq_refl). cbn [bind].
    rewrite subst_cleanup_body.
    eapply ends_within_le.
    + apply ends_within_app.
      * apply (IH ({["memory_cleanup_"]} ∪ hide) _ 1).
        -- left. split; [reflexivity|].
           apply elem_of_union_l, elem_of_singleton. reflexivity.
        -- rewrite !length_app. cbn [length]. lia.
      * apply (IH hide rest'' 3 (or_intror eq_refl)). lia.
    + rewrite !length_app. cbn [length]. lia.
Qed.

(** X7: with the macros of the header, macro replacement always ends and
    at most triples the text: given fuel for three times the length of a
    text, the scan returns its output or a diagnostic, never runs out,
    and the output is at most three times as long as the text. *)
Theorem macro_replacement_ends ts n :
  3 * length ts <= n ->
  expand n header_macros ∅ ts <> OutOfFuel /\
  forall out, expand n header_macros ∅ ts = Done out ->
    length out <= 3 * length ts.
Proof.
  intros Hn. exact (expand_ends n ∅ ts 3 (or_intror eq_refl) Hn).
Qed.

(** [memory_cleanup_()]: three tokens, eight in the output. *)
Lemma macro_replacement_ends_witness :
  let ts := [TId "memory_cleanup_"; TLParen; TRParen] in
  3 * length ts <= 9 /\
  expand 9 header_macros ∅ ts <> OutOfFuel /\
  expand 9 header_macros ∅ ts =
    Done [TId "__attribute__"; TLParen; TLParen; TId "cleanup"; TLParen;
          TRParen; TRParen; TRParen].
Proof.
  cbv zeta.
  assert (3 * length [TId "memory_cleanup_"; TLParen; TRParen] <= 9) as Hn
    by (cbn; lia).
  split; [exact Hn|]. split.
  - exact (proj1 (macro_replacement_ends _ 9 Hn)).
  - vm_compute. reflexivity.
Defined.

(** ** What an inclusion does to the translation unit *)

Lemma header_split :
  memory_notation_h = [Ifndef guard] ++ header_defines ++ [Endif].
Proof. reflexivity. Qed.

Lemma lookup_def_Some l x m : lookup_def l x = Some m -> (x, m) ∈ l.
Proof.
  induction l as [|[n m'] l IH]; cbn [lookup_def]; [intros E; discriminate E|].
  case_decide as E.
  - intros [= ->]. subst. apply list_elem_of_here.
  - intros H. apply list_elem_of_further, IH, H.
Qed.

(** A run of [#define] lines outside a skipped group always completes, and
    this is the state it leaves. *)
Lemma run_defines fuel ds : forall st,
  forallb is_define ds = true ->
  skipping st = false ->
  run fuel ds st =
  Done (State
          (foldl (fun T nm => <[nm.1 := nm.2]> T) (macros st) (defines_of ds))
          (conds st)
          (defined st ++ map fst (defines_of ds))
          (output st)
          (warnings st ++ redefinitions (macros st) (defines_of ds))).
Proof.
  induction ds as [|d ds IH]; intros st Hds Hs.
  { cbn. rewrite !app_nil_r. by destruct st. }
  cbn [forallb] in Hds. apply andb_prop in Hds as [Hd Hds].
  destruct d as [?|name ps body|?| |?]; try discriminate Hd.
  change (defines_of (Define name ps body :: ds))
    with ((name, Macro ps body) :: defines_of ds).
  cbn [run step]. rewrite Hs. cbn [bind].
  rewrite IH; [|exact Hds|exact Hs].
  cbn [macros conds defined output warnings foldl map fst snd redefinitions].
  by rewrite <- !app_assoc.
Qed.

(** Definitions of different names, read one after the other, end up over
    the table they started from. *)
Lemma foldl_insert_union (l : list (string * macro)) :
  forall T : gmap string macro,
  NoDup (map fst l) ->
  foldl (fun T nm => <[nm.1 := nm.2]> T) T l = list_to_map l ∪ T.
Proof.
  induction l as [|[n m] l IH]; intros T Hnd.
  { cbn. by rewrite (left_id_L ∅ (∪)). }
  cbn [map fst] in Hnd. apply NoDup_cons in Hnd as [Hn Hnd].
  cbn [foldl list_to_map foldr fst snd]. rewrite (IH _ Hnd).
  rewrite <- insert_union_l. symmetry. apply insert_union_r.
  apply not_elem_of_list_to_map_1. exact Hn.
Qed.

Lemma conflicts_insert n m T (l : list (string * macro)) :
  n ∉ map fst l -> conflicts (<[n := m]> T) l = conflicts T l.
Proof.
  induction l as [|[n' m'] l IH]; intros Hn; [done|].
  cbn [map fst] in Hn. apply not_elem_of_cons in Hn as [Hne Hn].
  unfold conflicts in *. cbn [omap list_omap fst snd].
  rewrite lookup_insert_ne by done. by rewrite (IH Hn).
Qed.

Lemma redefinitions_conflicts (l : list (string * macro)) :
  forall T, NoDup (map fst l) -> redefinitions T l = conflicts T l.
Proof.
  induction l as [|[n m] l IH]; intros T Hnd; [done|].
  cbn [map fst] in Hnd. apply NoDup_cons in Hnd as [Hn Hnd].
  cbn [redefinitions]. rewrite (IH _ Hnd), (conflicts_insert _ _ _ _ Hn).
  unfold conflicts. cbn [omap list_omap fst snd].
  destruct (T !! n) as [m'|]; [|done]. by destruct (decide (m' = m)).
Qed.

Lemma header_names_differ : NoDup (map fst (defines_of header_defines)).
Proof. apply (bool_decide_unpack _). vm_compute. exact I. Qed.

(** The header, read where it is not skipped and its guard is not yet
    defined. *)
Lemma header_read fuel st :
  skipping st = false ->
  macros st !! guard = None ->
  run fuel memory_notation_h st =
  Done (State (header_macros ∪ macros st) (conds st)
          (defined st ++ map fst (defines_of memory_notation_h))
          (output st)
          (warnings st ++
           conflicts (macros st) (defines_of memory_notation_h))).
Proof.
  intros Hs Hg. rewrite header_split, run_app.
  assert (run fuel [Ifndef guard] st =
          Done (State (macros st) (true :: conds st) (defined st)
                  (output st) (warnings st))) as ->.
  { cbn [run step bind]. rewrite Hs.
    rewrite bool_decide_eq_true_2 by exact Hg. reflexivity. }
  cbn [bind]. rewrite run_app.
  rewrite (run_defines fuel header_defines
             (State (macros st) (true :: conds st) (defined st) (output st)
                (warnings st)) eq_refl eq_refl).
  cbn [bind run step macros conds defined output warnings].
  rewrite (foldl_insert_union _ _ header_names_differ).
  rewrite (redefinitions_conflicts _ _ header_names_differ).
  change (defines_of memory_notation_h) with (defines_of header_defines).
  rewrite header_macros_defines.
  change (defines_of memory_notation_h) with (defines_of header_defines).
  reflexivity.
Qed.

(** X8: what an inclusion does.  It always completes.  In a skipped group,
    or with the guard already defined, it changes nothing.  Otherwise the
    macro table becomes the header's eighteen macros over those of the
    translation unit, so that a macro of the unit is kept exactly when the
    header does not define its name; the eighteen [#define]s are executed
    in the header's order; and one [Redefined] is reported for each name
    of the header to which the unit had given another definition, and no
    other diagnostic.  In every case the conditionals that are open are
    those that were open before, and no text is produced. *)
Theorem inclusion_effect fuel st :
  exists st',
    run fuel memory_notation_h st = Done st' /\
    conds st' = conds st /\
    output st' = output st /\
    ((skipping st = true \/ is_Some (macros st !! guard)) /\ st' = st \/
     (skipping st = false /\ macros st !! guard = None) /\
     macros st' = header_macros ∪ macros st /\
     (forall n, header_macros !! n = None ->
        macros st' !! n = macros st !! n) /\
     defined st' = defined st ++ map fst (defines_of memory_notation_h) /\
     warnings st' =
       warnings st ++ conflicts (macros st) (defines_of memory_notation_h)).
Proof.
  destruct (skipping st) eqn:Hs.
  { exists st. rewrite (header_in_skipped_group _ _ Hs).
    split; [reflexivity|]. split; [reflexivity|]. split; [reflexivity|].
    left. split; [left|]; reflexivity. }
  destruct (macros st !! guard) as [g|] eqn:Hg.
  { exists st. rewrite header_when_guarded by (rewrite Hg; eauto).
    split; [reflexivity|]. split; [reflexivity|]. split; [reflexivity|].
    left. split; [right; eauto|reflexivity]. }
  eexists. split; [exact (header_read fuel st Hs Hg)|].
  cbn [macros conds defined output warnings].
  split; [reflexivity|]. split; [reflexivity|].
  right. split; [split; reflexivity|].
  split; [reflexivity|]. split; [|split; reflexivity].
  intros n Hn. rewrite lookup_union, Hn. by destruct (macros st !! n).
Qed.

(** X9: the header takes over a name that is in use.  When the translation
    unit has already given one of the header's names another definition,
    and the header is really read (not skipped, guard not yet defined),
    the inclusion completes, the name has the header's definition
    afterwards, and [Redefined] is reported for it. *)
Theorem inclusion_conflict fuel st n m m' :
  skipping st = false ->
  macros st !! guard = None ->
  header_macros !! n = Some m ->
  macros st !! n = Some m' -> m' <> m ->
  exists st',
    run fuel memory_notation_h st = Done st' /\
    macros st' !! n = Some m /\
    Redefined n ∈ warnings st'.
Proof.
  intros Hs Hg Hn Hm Hne.
  eexists. split; [exact (header_read fuel st Hs Hg)|].
  cbn [macros warnings]. split.
  - rewrite lookup_union, Hn. by destruct (macros st !! n).
  - apply elem_of_app. right.
    rewrite header_lookup in Hn. apply lookup_def_Some in Hn.
    unfold conflicts. apply list_elem_of_omap.
    exists (n, m). split; [exact Hn|].
    cbn [fst snd]. rewrite Hm.
    destruct (decide (m' = m)) as [E|_]; [destruct (Hne E)|reflexivity].
Qed.

(** A translation unit in which [m_t] already is a type name. *)
Lemma inclusion_conflict_witness :
  let st := State {["m_t" := Macro None [TId "matrix_t"]]} [] ["m_t"] []
              [] in
  header_macros !! "m_t" = Some (Macro None []) /\
  macros st !! "m_t" = Some (Macro None [TId "matrix_t"]) /\
  exists st',
    run 0 memory_notation_h st = Done st' /\
    macros st' !! "m_t" = Some (Macro None []) /\
    warnings st' = [Redefined "m_t"].
Proof.
  cbv zeta.
  assert (header_macros !! "m_t" = Some (Macro None [])) as Hn
    by (by vm_compute).
  split; [exact Hn|]. split; [by vm_compute|].
  destruct (inclusion_conflict 0
              (State {["m_t" := Macro None [TId "matrix_t"]]} [] ["m_t"] []
                 [])
              "m_t" (Macro None []) (Macro None [TId "matrix_t"])
              eq_refl ltac:(by vm_compute) Hn ltac:(by vm_compute)
              ltac:(intros E; discriminate E)) as (st' & Hr & Ht & _).
  exists st'. split; [exact Hr|]. split; [exact Ht|].
  vm_compute in Hr. injection Hr as <-. reflexivity.
Defined.

(** * The example of the closing comment *)

Ltac heap_lookup :=
  repeat first
    [ rewrite lookup_insert_eq
    | rewrite lookup_insert_ne by congruence
    | rewrite lookup_delete_eq
    | rewrite lookup_delete_ne by congruence ].

Ltac heap_eq :=
  apply map_eq; intros ?;
  repeat first [rewrite lookup_delete | rewrite lookup_insert];
  repeat case_decide; subst; congruence.

Lemma first_free_fresh c h l : first_free c h = Some l -> h !! l = None.
Proof.
  intros [= <-]. apply not_elem_of_dom, is_fresh.
Qed.

Section example_properties.
Variable alloc : object -> gmap positive object -> option positive.

(** What [example_new] does, for any allocator. *)
Lemma example_new_spec name id m :
  example_new alloc name id m =
  match alloc (StructExample None None) (heap m) with
  | Some l =>
      Ok (Block l)
        (Machine (<[l := StructExample (Some name) (Some id)]> (heap m))
           (stdout m))
  | None => Fault NullDereference
  end.
Proof.
  unfold example_new, seq, malloc.
  destruct (alloc _ (heap m)) as [l|]; [|reflexivity].
  unfold set_name, set_id, seq, struct_at, ret. cbn.
  heap_lookup. cbn. heap_lookup. cbn.
  by rewrite !insert_insert_eq.
Qed.

(** X10: [example_new] puts the two pointers it is given, and no copy of
    what they point to, into one new block, and [example_id] on the result
    returns that very [id] pointer and changes nothing.  It does not test
    what [malloc] returned: with memory exhausted it dereferences a null
    pointer. *)
Theorem example_new_then_id name id m :
  (do* ex := example_new alloc name id in
   do* p := example_id ex in
   ret (ex, p)) m =
  match alloc (StructExample None None) (heap m) with
  | Some l =>
      Ok (Block l, id)
        (Machine (<[l := StructExample (Some name) (Some id)]> (heap m))
           (stdout m))
  | None => Fault NullDereference
  end.
Proof.
  unfold seq at 1. rewrite example_new_spec.
  destruct (alloc _ (heap m)) as [l|]; [|reflexivity].
  unfold example_id, get_id, seq, struct_at, ret. cbn.
  heap_lookup. reflexivity.
Qed.

Hypothesis alloc_fresh :
  forall c h l, alloc c h = Some l -> h !! l = None.

(** X11: [example_delete] after [example_new] gives back the struct and
    the block whose possession [id] handed over, each once, and nothing
    else: the heap is the one before the call without the [id] block,
    whatever [name] points to. *)
Theorem example_new_then_delete name li o m l :
  heap m !! li = Some o ->
  alloc (StructExample None None) (heap m) = Some l ->
  (do* ex := example_new alloc name (Block li) in example_delete ex) m =
  Ok tt (Machine (delete li (heap m)) (stdout m)).
Proof.
  intros Hli Hl. pose proof (alloc_fresh _ _ _ Hl) as Hfresh.
  assert (l <> li) as Hne by congruence.
  unfold seq at 1. rewrite example_new_spec, Hl.
  unfold example_delete, get_id, seq, struct_at, ret, free. cbn.
  heap_lookup. cbn. heap_lookup. rewrite Hli. cbn. heap_lookup.
  f_equal. f_equal. heap_eq.
Qed.

(** X12: [main] leaves the heap as it found it and prints [World] and a
    newline, whenever its two allocations succeed.  When [strdup] or
    [malloc] fails it runs into a null dereference: in [example_new], which
    does not test what [malloc] returned, or in [printf], which is handed
    the null pointer that [strdup] returned. *)
Theorem main_spec m :
  main alloc m =
  match alloc (Chars "World") (heap m) with
  | Some l1 =>
      match alloc (StructExample None None)
              (<[l1 := Chars "World"]> (heap m)) with
      | Some l2 =>
          Ok 0 (Machine (heap m) (stdout m +:+ "World" +:+ newline))
      | None => Fault NullDereference
      end
  | None => Fault NullDereference
  end.
Proof.
  unfold main, strdup, malloc. unfold seq at 1 2. cbn [string_at].
  destruct (alloc (Chars "World") (heap m)) as [l1|] eqn:H1.
  - unfold seq at 1. rewrite example_new_spec. cbn [heap stdout].
    destruct (alloc (StructExample None None)
                (<[l1:=Chars "World"]> (heap m))) as [l2|] eqn:H2;
      [|reflexivity].
    pose proof (alloc_fresh _ _ _ H1) as Hf1.
    pose proof (alloc_fresh _ _ _ H2) as Hf2.
    assert (l2 <> l1) as Hne.
    { intros ->. rewrite lookup_insert_eq in Hf2. discriminate Hf2. }
    rewrite lookup_insert_ne in Hf2 by congruence.
    unfold example_id, example_delete, printf_line, get_id, seq, struct_at,
      string_at, ret, free. cbn.
    heap_lookup. cbn. heap_lookup. cbn. heap_lookup. cbn. heap_lookup.
    cbn. heap_lookup. cbn.
    f_equal. f_equal. heap_eq.
  - unfold seq at 1. rewrite example_new_spec.
    destruct (alloc (StructExample None None) (heap m)) as [l2|];
      [|reflexivity].
    unfold example_id, printf_line, get_id, seq, struct_at, string_at, ret.
    cbn. heap_lookup. reflexivity.
Qed.
End example_properties.

(** X13: [example_delete] must not be called twice.  After a call that
    succeeded, a second call on the same pointer reads a block that has
    been given back. *)
Theorem example_delete_twice ex m m' :
  example_delete ex m = Ok tt m' ->
  example_delete ex m' = Fault DanglingPointer.
Proof.
  unfold example_delete, get_id, seq, struct_at, ret.
  destruct ex as [|s|l]; try (intros E; discriminate E).
  destruct (heap m !! l) as [[s|name [id|]]|] eqn:Hl;
    try (intros E; discriminate E).
  cbn [snd].
  destruct (free id m) as [[] m1|f] eqn:E1; [|intros E; discriminate E].
  unfold free at 1.
  destruct (heap m1 !! l) as [o|]; [|intros E; discriminate E].
  intros [= <-]. cbn. by rewrite lookup_delete_eq.
Qed.

(** The [id] string is block 1; the first-free allocator gives block 2 for
    the struct. *)
Lemma example_new_then_delete_witness :
  let m := Machine {[1%positive := Chars "World"]} "" in
  heap m !! 1%positive = Some (Chars "World") /\
  first_free (StructExample None None) (heap m) = Some 2%positive /\
  (do* ex := example_new first_free (Literal "Hello") (Block 1) in
   example_delete ex) m =
  Ok tt (Machine (delete 1%positive (heap m)) (stdout m)).
Proof.
  cbv zeta.
  assert (heap (Machine {[1%positive := Chars "World"]} "") !! 1%positive =
          Some (Chars "World")) as Hli by (vm_compute; reflexivity).
  assert (first_free (StructExample None None)
            (heap (Machine {[1%positive := Chars "World"]} "")) =
          Some 2%positive) as Hl by (vm_compute; reflexivity).
  split; [exact Hli|]. split; [exact Hl|].
  exact (example_new_then_delete first_free first_free_fresh
           (Literal "Hello") 1%positive (Chars "World") _ 2%positive Hli Hl).
Defined.

(** A struct whose [id] is a null pointer, deleted twice. *)
Lemma example_delete_twice_witness :
  let ex := Block 1 in
  let m := Machine {[1%positive :=
                       StructExample (Some (Literal "Hello")) (Some NULL)]}
             "" in
  let m' := Machine ∅ "" in
  example_delete ex m = Ok tt m' /\
  example_delete ex m' = Fault DanglingPointer.
Proof.
  cbv zeta.
  assert (example_delete (Block 1)
            (Machine {[1%positive :=
                         StructExample (Some (Literal "Hello")) (Some NULL)]}
               "") = Ok tt (Machine ∅ "")) as H
    by (vm_compute; reflexivity).
  split; [exact H|]. exact (example_delete_twice _ _ _ H).
Defined.

(** [main] on the empty heap with the first-free allocator. *)
Lemma main_spec_witness :
  main first_free (Machine ∅ "") =
  Ok 0 (Machine ∅ ("World" +:+ newline)).
Proof.
  rewrite (main_spec first_free first_free_fresh). vm_compute. reflexivity.
Defined.
